(** * kube-parrot: the external-services controller

    A shallow embedding of [pkg/controller/externalservices.go]: the three
    observed-state caches, the nine informer callbacks that feed them, and the
    [reconcile] function that drives the route store. *)

From Stdlib Require Import String Ascii NArith ZArith List Lia.
From Stdlib.Strings Require Import Byte.
From stdpp Require Import base option gmap strings list fin_maps.

Local Open Scope string_scope.
Local Open Scope list_scope.

#[local] Set Warnings "-clear-no-such-hyp".

(** ** Go's [net.IP], as far as the controller uses it

    [net.IP] is a byte slice; a nil slice and an empty one both have length 0
    and are the empty list here. *)
Module net.

Definition IP : Type := list byte.

Definition IPv4len : nat := 4.
Definition IPv6len : nat := 16.

Definition is_zero (b : byte) : bool := Byte.eqb b x00.

Definition isZeros (p : IP) : bool := forallb is_zero p.

(** [p[i]]; the callers below only index inside the slice. *)
Definition at_ (p : IP) (i : nat) : byte := nth i p x00.

(** [ip.To4()]: a 4-byte address is returned as it is, a 16-byte
    IPv4-mapped address ([::ffff:a.b.c.d]) gives its last four bytes, and
    everything else gives nil. *)
Definition To4 (ip : IP) : IP :=
  if Nat.eqb (length ip) IPv4len then ip
  else if Nat.eqb (length ip) IPv6len
          && isZeros (take 10 ip)
          && Byte.eqb (at_ ip 10) xff
          && Byte.eqb (at_ ip 11) xff
       then take 4 (drop 12 ip)
       else [].

Definition digit (n : N) : ascii := ascii_of_N (48 + n).

(** [uitoa]: the decimal digits of [val], least significant first into a
    20-byte buffer; the fuel is the buffer's size. *)
Fixpoint uitoa_loop (fuel : nat) (val : N) (buf : string) : string :=
  match fuel with
  | O => buf
  | S fuel' =>
      if (10 <=? val)%N
      then let q := (val / 10)%N in
           uitoa_loop fuel' q (String (digit (val - q * 10)) buf)
      else String (digit val) buf
  end.

Definition uitoa (val : N) : string :=
  if (val =? 0)%N then "0" else uitoa_loop 20 val "".

Definition hexDigit (v : N) : ascii :=
  if (v <? 10)%N then ascii_of_N (48 + v) else ascii_of_N (87 + v).

(** [hexString]: two hexadecimal digits per byte. *)
Fixpoint hexString (b : list byte) : string :=
  match b with
  | [] => ""
  | tn :: rest =>
      let n := Byte.to_N tn in
      String (hexDigit (n / 16)) (String (hexDigit (n mod 16)) (hexString rest))
  end.

(** [appendHex]: a 16-bit group without leading zeros; [j] counts the
    nibbles still to look at, from the most significant one. *)
Fixpoint appendHex_loop (j : nat) (i : N) : string :=
  match j with
  | O => ""
  | S j' =>
      let v := N.shiftr i (4 * N.of_nat j') in
      (if (0 <? v)%N then String (hexDigit (N.land v 15)) "" else "")
        +:+ appendHex_loop j' i
  end.

Definition appendHex (i : N) : string :=
  if (i =? 0)%N then "0" else appendHex_loop 8 i.

(** The inner loop of the zero-run search: advance [j] by two while the
    16-bit group at [j] is zero. *)
Fixpoint zero_run (fuel : nat) (p : IP) (j : nat) : nat :=
  match fuel with
  | O => j
  | S fuel' =>
      if (j <? IPv6len)%nat && is_zero (at_ p j) && is_zero (at_ p (j + 1))
      then zero_run fuel' p (j + 2)
      else j
  end.

(** The outer loop: the longest run of zero groups, as byte offsets
    [(e0, e1)], both [-1] when there is none. *)
Fixpoint longest_run (fuel : nat) (p : IP) (i : nat) (e0 e1 : Z) : Z * Z :=
  match fuel with
  | O => (e0, e1)
  | S fuel' =>
      if (i <? IPv6len)%nat then
        let j := zero_run 8 p i in
        if (i <? j)%nat && (e1 - e0 <? Z.of_nat j - Z.of_nat i)%Z
        then longest_run fuel' p (j + 2) (Z.of_nat i) (Z.of_nat j)
        else longest_run fuel' p (i + 2) e0 e1
      else (e0, e1)
  end.

(** The printing loop, with [::] in place of the run [e0 .. e1]. *)
Fixpoint print_groups (fuel : nat) (p : IP) (i : nat) (e0 e1 : Z) : string :=
  match fuel with
  | O => ""
  | S fuel' =>
      if (i <? IPv6len)%nat then
        let group k :=
          appendHex (N.lor (N.shiftl (Byte.to_N (at_ p k)) 8)
                           (Byte.to_N (at_ p (k + 1)))) in
        if (Z.of_nat i =? e0)%Z then
          let i' := Z.to_nat e1 in
          if (IPv6len <=? i')%nat then "::"
          else "::" +:+ group i' +:+ print_groups fuel' p (i' + 2) e0 e1
        else
          (if (0 <? i)%nat then ":" else "")
            +:+ group i +:+ print_groups fuel' p (i + 2) e0 e1
      else ""
  end.

(** [ip.String()]: ["<nil>"] for a slice of length 0, dotted decimal for an
    address with an IPv4 form, ["?"] and the bytes in hexadecimal for a slice
    that is no address at all, and the IPv6 text form otherwise. *)
Definition String_ (ip : IP) : string :=
  match ip with
  | [] => "<nil>"
  | _ =>
      match To4 ip with
      | [a; b; c; d] =>
          uitoa (Byte.to_N a) +:+ "." +:+ uitoa (Byte.to_N b) +:+ "."
            +:+ uitoa (Byte.to_N c) +:+ "." +:+ uitoa (Byte.to_N d)
      | _ =>
          if negb (Nat.eqb (length ip) IPv6len) then "?" +:+ hexString ip
          else
            let '(e0, e1) := longest_run 8 ip 0 (-1) (-1) in
            let '(e0, e1) :=
              if (e1 - e0 <=? 2)%Z then ((-1)%Z, (-1)%Z) else (e0, e1) in
            print_groups 8 ip 0 e0 e1
      end
  end.

End net.

(** ** The Kubernetes objects the controller reads *)
Module v1.

Record ObjectMeta : Type := { Name : string; Namespace : string }.

Record PodCondition : Type := { Type_ : string; Status : string }.

Record PodStatus : Type := { HostIP : string; Conditions : list PodCondition }.

Record Pod : Type := { pod_ObjectMeta : ObjectMeta; pod_Status : PodStatus }.

Record ServiceSpec : Type := { ExternalIPs : list string }.

Record Service : Type :=
  { service_ObjectMeta : ObjectMeta; service_Spec : ServiceSpec }.

(** Of a subset only the ready addresses are read. *)
Record EndpointSubset : Type := { Addresses : list string }.

Record Endpoints : Type :=
  { endpoints_ObjectMeta : ObjectMeta; Subsets : list EndpointSubset }.

#[global] Instance ObjectMeta_eq_dec : EqDecision ObjectMeta.
Proof. solve_decision. Defined.
#[global] Instance PodCondition_eq_dec : EqDecision PodCondition.
Proof. solve_decision. Defined.
#[global] Instance PodStatus_eq_dec : EqDecision PodStatus.
Proof. solve_decision. Defined.
#[global] Instance Pod_eq_dec : EqDecision Pod.
Proof. solve_decision. Defined.
#[global] Instance ServiceSpec_eq_dec : EqDecision ServiceSpec.
Proof. solve_decision. Defined.
#[global] Instance Service_eq_dec : EqDecision Service.
Proof. solve_decision. Defined.
#[global] Instance EndpointSubset_eq_dec : EqDecision EndpointSubset.
Proof. solve_decision. Defined.
#[global] Instance Endpoints_eq_dec : EqDecision Endpoints.
Proof. solve_decision. Defined.

End v1.

(** [meta.Accessor]: every object the stores hold carries an [ObjectMeta]. *)
Class Object (T : Type) : Type := ObjectMeta_of : T → v1.ObjectMeta.

#[global] Instance Pod_Object : Object v1.Pod := v1.pod_ObjectMeta.
#[global] Instance Service_Object : Object v1.Service := v1.service_ObjectMeta.
#[global] Instance Endpoints_Object : Object v1.Endpoints := v1.endpoints_ObjectMeta.

(** ** client-go's [cache.Store]

    A thread-safe map from the key of an object to the object. The three
    stores of the controller are built with
    [DeletionHandlingMetaNamespaceKeyFunc]; the handlers assert their argument
    to be a pod, a service or an endpoints object, so the tombstone case of
    that function never arises and it is [MetaNamespaceKeyFunc]. *)
Module cache.

(** [<namespace>/<name>], or [<name>] alone when the namespace is empty. *)
Definition MetaNamespaceKeyFunc {T} `{Object T} (obj : T) : string :=
  let m := ObjectMeta_of obj in
  if (0 <? String.length (v1.Namespace m))%nat
  then v1.Namespace m +:+ "/" +:+ v1.Name m
  else v1.Name m.

Definition DeletionHandlingMetaNamespaceKeyFunc {T} `{Object T} (obj : T) : string :=
  MetaNamespaceKeyFunc obj.

Definition NewStore {T} : gmap string T := ∅.

(** [Add]: [items[key] = obj], an upsert. *)
Definition Add {T} `{Object T} (obj : T) (items : gmap string T) : gmap string T :=
  <[DeletionHandlingMetaNamespaceKeyFunc obj := obj]> items.

(** [Delete]: [delete(items, key)], nothing happens for a missing key. *)
Definition Delete {T U} `{Object U} (obj : U) (items : gmap string T) : gmap string T :=
  delete (DeletionHandlingMetaNamespaceKeyFunc obj) items.

(** [Get]: the item under the key of [obj], [None] when [exists] is false. The
    key is computed from whatever object is passed: [reconcile] looks a
    service up in the endpoints store. *)
Definition Get {T U} `{Object U} (items : gmap string T) (obj : U) : option T :=
  items !! DeletionHandlingMetaNamespaceKeyFunc obj.

(** The [exists] result of [Get]. *)
Definition exists_ {T U} `{Object U} (items : gmap string T) (obj : U) : bool :=
  match Get items obj with Some _ => true | None => false end.

(** [List]: the stored objects (Go gives them in no particular order). *)
Definition List {T} (items : gmap string T) : list T := (map_to_list items).*2.

End cache.

(** ** What the controller imports from the packages [types] and [util]

    The two constants and the pod-readiness test are not part of this file;
    the controller is read for every value of them. *)
Class Imports : Type := {
  KubeProxyPrefix : string;
  KubeProxyNamespace : string;
  IsPodReady : v1.Pod → bool
}.

(** ** The controller *)

(** The stores and the node address of [ExternalServicesController]. Of the
    dirty reconciler only the calls of its [Dirty] method matter to the
    handlers: [dirty] counts them. The route store is threaded separately
    through [reconcile], the one function that touches it. *)
Record ExternalServicesController : Type := {
  hostIP : net.IP;
  services : gmap string v1.Service;
  endpoints : gmap string v1.Endpoints;
  proxies : gmap string v1.Pod;
  dirty : nat
}.

Definition NewExternalServicesController (hostIP : net.IP) : ExternalServicesController :=
  {| hostIP := hostIP;
     services := cache.NewStore;
     endpoints := cache.NewStore;
     proxies := cache.NewStore;
     dirty := 0 |}.

Definition set_services (f : gmap string v1.Service → gmap string v1.Service)
    (c : ExternalServicesController) : ExternalServicesController :=
  {| hostIP := hostIP c; services := f (services c); endpoints := endpoints c;
     proxies := proxies c; dirty := dirty c |}.

Definition set_endpoints (f : gmap string v1.Endpoints → gmap string v1.Endpoints)
    (c : ExternalServicesController) : ExternalServicesController :=
  {| hostIP := hostIP c; services := services c; endpoints := f (endpoints c);
     proxies := proxies c; dirty := dirty c |}.

Definition set_proxies (f : gmap string v1.Pod → gmap string v1.Pod)
    (c : ExternalServicesController) : ExternalServicesController :=
  {| hostIP := hostIP c; services := services c; endpoints := endpoints c;
     proxies := f (proxies c); dirty := dirty c |}.

(** [c.reconciler.Dirty()] *)
Definition Dirty (c : ExternalServicesController) : ExternalServicesController :=
  {| hostIP := hostIP c; services := services c; endpoints := endpoints c;
     proxies := proxies c; dirty := S (dirty c) |}.

Section Handlers.
Context `{Imports}.

Definition podDelete (pod : v1.Pod) (c : ExternalServicesController) :
    ExternalServicesController :=
  if cache.exists_ (proxies c) pod
  then Dirty (set_proxies (cache.Delete pod) c)
  else c.

Definition podAdd (pod : v1.Pod) (c : ExternalServicesController) :
    ExternalServicesController :=
  if negb (String.prefix KubeProxyPrefix (v1.Name (v1.pod_ObjectMeta pod)))
     || negb (String.eqb (v1.Namespace (v1.pod_ObjectMeta pod)) KubeProxyNamespace)
  then c
  else if negb (String.eqb (v1.HostIP (v1.pod_Status pod))
                           (net.String_ (net.To4 (hostIP c))))
  then c
  else if IsPodReady pod then
    if negb (cache.exists_ (proxies c) pod)
    then Dirty (set_proxies (cache.Add pod) c)
    else c
  else
    if cache.exists_ (proxies c) pod
    then Dirty (set_proxies (cache.Delete pod) c)
    else c.

Definition podUpdate (old cur : v1.Pod) (c : ExternalServicesController) :
    ExternalServicesController :=
  podAdd cur c.

Definition serviceDelete (service : v1.Service) (c : ExternalServicesController) :
    ExternalServicesController :=
  Dirty (set_services (cache.Delete service) c).

Definition serviceAdd (service : v1.Service) (c : ExternalServicesController) :
    ExternalServicesController :=
  if Nat.eqb (length (v1.ExternalIPs (v1.service_Spec service))) 0
  then c
  else if negb (cache.exists_ (services c) service)
  then Dirty (set_services (cache.Add service) c)
  else c.

Definition serviceUpdate (old cur : v1.Service) (c : ExternalServicesController) :
    ExternalServicesController :=
  serviceAdd cur c.

Definition endpointsDelete (endpoints_ : v1.Endpoints) (c : ExternalServicesController) :
    ExternalServicesController :=
  if cache.exists_ (endpoints c) endpoints_
  then Dirty (set_endpoints (cache.Delete endpoints_) c)
  else c.

(** The loop over [endpoints.Subsets] that sets [ready] and breaks at the
    first subset with an address. *)
Fixpoint subsets_ready (subsets : list v1.EndpointSubset) : bool :=
  match subsets with
  | [] => false
  | v :: rest =>
      if (0 <? length (v1.Addresses v))%nat then true else subsets_ready rest
  end.

Definition endpointsAdd (endpoints_ : v1.Endpoints) (c : ExternalServicesController) :
    ExternalServicesController :=
  let ready := subsets_ready (v1.Subsets endpoints_) in
  if ready then
    if negb (cache.exists_ (endpoints c) endpoints_)
    then Dirty (set_endpoints (cache.Add endpoints_) c)
    else c
  else
    if cache.exists_ (endpoints c) endpoints_
    then Dirty (set_endpoints (cache.Delete endpoints_) c)
    else c.

Definition endpointsUpdate (old cur : v1.Endpoints) (c : ExternalServicesController) :
    ExternalServicesController :=
  endpointsAdd cur c.

(** The notifications the informers deliver, one constructor per registered
    callback. *)
Inductive Event : Type :=
  | PodAdd (obj : v1.Pod)
  | PodUpdate (old cur : v1.Pod)
  | PodDelete (obj : v1.Pod)
  | ServiceAdd (obj : v1.Service)
  | ServiceUpdate (old cur : v1.Service)
  | ServiceDelete (obj : v1.Service)
  | EndpointsAdd (obj : v1.Endpoints)
  | EndpointsUpdate (old cur : v1.Endpoints)
  | EndpointsDelete (obj : v1.Endpoints).

Definition handle (c : ExternalServicesController) (e : Event) :
    ExternalServicesController :=
  match e with
  | PodAdd obj => podAdd obj c
  | PodUpdate old cur => podUpdate old cur c
  | PodDelete obj => podDelete obj c
  | ServiceAdd obj => serviceAdd obj c
  | ServiceUpdate old cur => serviceUpdate old cur c
  | ServiceDelete obj => serviceDelete obj c
  | EndpointsAdd obj => endpointsAdd obj c
  | EndpointsUpdate old cur => endpointsUpdate old cur c
  | EndpointsDelete obj => endpointsDelete obj c
  end.

(** An informer calls its handlers one notification at a time, and the
    handlers of different kinds write to different stores: what the controller
    has seen is a sequence of notifications, handled in order. *)
Definition deliver (events : list Event) (c : ExternalServicesController) :
    ExternalServicesController :=
  fold_left handle events c.

End Handlers.

(** ** The route store, as [reconcile] sees it *)
Module bgp.

(** A route carries the service and the proxy it was made from. *)
Record ExternalIPRoute : Type := { Service : v1.Service; Proxy : v1.Pod }.

#[global] Instance ExternalIPRoute_eq_dec : EqDecision ExternalIPRoute.
Proof. solve_decision. Defined.

End bgp.

(** A Go [error] value; [None] below is [nil]. *)
Definition error : Type := string.

(** The three methods of [*bgp.ExternalIPRoutesStore] that [reconcile] calls.
    [reconcile] is read against every implementation of them: [Add] and
    [Delete] return the store they leave behind and the error they report. *)
Class RouteStore (RS : Type) : Type := {
  routes_List : RS → list bgp.ExternalIPRoute;
  routes_Add : v1.Service → v1.Pod → RS → RS * option error;
  routes_Delete : bgp.ExternalIPRoute → RS → RS * option error
}.

(** A mutating call that [reconcile] issued. *)
Inductive Call : Type :=
  | CallDelete (route : bgp.ExternalIPRoute)
  | CallAdd (service : v1.Service) (proxy : v1.Pod).

#[global] Instance Call_eq_dec : EqDecision Call.
Proof. solve_decision. Defined.

(** What a run of [reconcile] acts on: the route store, and the log of the
    calls issued so far, oldest first, each with the error it returned. *)
Record World (RS : Type) : Type := {
  store : RS;
  calls : list (Call * option error)
}.
Arguments store {RS} _.
Arguments calls {RS} _.

(** A computation that may stop with an error ([return err]). *)
Definition M (RS A : Type) : Type := World RS → World RS * (error + A).

#[global] Instance M_ret {RS} : MRet (M RS) := λ A (a : A) w, (w, inr a).

#[global] Instance M_bind {RS} : MBind (M RS) := λ A B (k : A → M RS B) (m : M RS A) w,
  match m w with
  | (w', inr a) => k a w'
  | (w', inl err) => (w', inl err)
  end.

Section Reconcile.
Context {RS : Type} `{RouteStore RS}.

(** [c.routes.List()] *)
Definition List_ : M RS (list bgp.ExternalIPRoute) :=
  λ w, (w, inr (routes_List (store w))).

(** [if err := c.routes.Delete(route); err != nil { return err }] *)
Definition Delete_ (route : bgp.ExternalIPRoute) : M RS () :=
  λ w, let '(s, e) := routes_Delete route (store w) in
       ({| store := s; calls := calls w ++ [(CallDelete route, e)] |},
        match e with Some err => inl err | None => inr () end).

(** [if err := c.routes.Add(service, proxy); err != nil { return err }] *)
Definition Add_ (service : v1.Service) (proxy : v1.Pod) : M RS () :=
  λ w, let '(s, e) := routes_Add service proxy (store w) in
       ({| store := s; calls := calls w ++ [(CallAdd service proxy, e)] |},
        match e with Some err => inl err | None => inr () end).

(** [if cond { body }] *)
Definition when_ (cond : bool) (body : M RS ()) : M RS () :=
  if cond then body else mret ().

(** [for _, x := range xs { body }], left as soon as [body] returns an error. *)
Fixpoint for_range {A} (xs : list A) (body : A → M RS ()) : M RS () :=
  match xs with
  | [] => mret ()
  | x :: xs' => body x ≫= λ _, for_range xs' body
  end.

(** The body of the first loop of [reconcile], for one route of the list. *)
Definition prune (c : ExternalServicesController) (route : bgp.ExternalIPRoute) :
    M RS () :=
  when_ (negb (cache.exists_ (proxies c) (bgp.Proxy route))) (Delete_ route) ≫= λ _,
  when_ (negb (cache.exists_ (services c) (bgp.Service route))) (Delete_ route) ≫= λ _,
  when_ (negb (cache.exists_ (endpoints c) (bgp.Service route))) (Delete_ route).

(** The body of the second loop, for one cached proxy. *)
Definition converge (c : ExternalServicesController) (proxy : v1.Pod) : M RS () :=
  for_range (cache.List (services c)) (λ service,
    when_ (cache.exists_ (endpoints c) service) (Add_ service proxy)).

(** [reconcile]: the route list is read once, before the first loop. *)
Definition reconcile (c : ExternalServicesController) : M RS () :=
  List_ ≫= λ routes,
  for_range routes (prune c) ≫= λ _,
  for_range (cache.List (proxies c)) (converge c).

(** One run on the store [s], with an empty call log. *)
Definition run_reconcile (c : ExternalServicesController) (s : RS) :
    World RS * (error + ()) :=
  reconcile c {| store := s; calls := [] |}.

(** The routes [Delete] was called on, in call order. *)
Definition deleted (log : list (Call * option error)) : list bgp.ExternalIPRoute :=
  omap (λ ce, match ce.1 with CallDelete r => Some r | CallAdd _ _ => None end) log.

(** How many of the three checks of the first loop a route fails. *)
Definition failed_checks (c : ExternalServicesController)
    (route : bgp.ExternalIPRoute) : nat :=
  (if cache.exists_ (proxies c) (bgp.Proxy route) then 0 else 1)
  + (if cache.exists_ (services c) (bgp.Service route) then 0 else 1)
  + (if cache.exists_ (endpoints c) (bgp.Service route) then 0 else 1).

(** The route passes all three checks. *)
Definition valid (c : ExternalServicesController)
    (route : bgp.ExternalIPRoute) : bool :=
  cache.exists_ (proxies c) (bgp.Proxy route)
  && cache.exists_ (services c) (bgp.Service route)
  && cache.exists_ (endpoints c) (bgp.Service route).

(** One call, with the error test that follows it in [reconcile]. *)
Definition issue (call : Call) : M RS () :=
  match call with
  | CallDelete route => Delete_ route
  | CallAdd service proxy => Add_ service proxy
  end.

(** The [Delete] calls the first loop is bound to make for a route list. *)
Definition planned_deletes (c : ExternalServicesController)
    (routes : list bgp.ExternalIPRoute) : list Call :=
  route ← routes; replicate (failed_checks c route) (CallDelete route).

(** The [Add] calls the second loop is bound to make. *)
Definition planned_adds (c : ExternalServicesController) : list Call :=
  proxy ← cache.List (proxies c);
  service ← cache.List (services c);
  if cache.exists_ (endpoints c) service then [CallAdd service proxy] else [].

End Reconcile.

(** Every call of the log returned without an error. *)
Definition succeeded (log : list (Call * option error)) : Prop :=
  Forall (λ ce, ce.2 = None) log.

(** The routes of the [Delete] calls of a call sequence. *)
Definition delete_of (call : Call) : option bgp.ExternalIPRoute :=
  match call with CallDelete r => Some r | CallAdd _ _ => None end.

(** ** The route store of the spec *)

(** Modelled from the spec: the route store [bgp.ExternalIPRoutesStore], whose
    code is in package [bgp] and not in [pkg/controller]. The spec gives it
    three operations over routes keyed by (Service, Proxy), a service and a
    proxy being identified by namespace and name: [List], the sequence of
    routes; [Add], error or success, a no-op on a route that exists; and
    [Delete], error or success, a no-op on a route that does not. Which calls
    report an error is left open: [fault n] is what the [n]-th call of [Add]
    or [Delete] reports, and a call that reports an error changes no route. *)
Module routes_model.

Definition route_key (r : bgp.ExternalIPRoute) : string * string :=
  (cache.MetaNamespaceKeyFunc (bgp.Service r),
   cache.MetaNamespaceKeyFunc (bgp.Proxy r)).

Record ExternalIPRoutesStore : Type := {
  routes : list bgp.ExternalIPRoute;
  served : nat
}.

Definition has_route (k : string * string) (l : list bgp.ExternalIPRoute) : bool :=
  bool_decide (k ∈ route_key <$> l).

Definition List (st : ExternalIPRoutesStore) : list bgp.ExternalIPRoute :=
  routes st.

Definition Add (fault : nat → option error) (service : v1.Service) (proxy : v1.Pod)
    (st : ExternalIPRoutesStore) : ExternalIPRoutesStore * option error :=
  match fault (served st) with
  | Some err => ({| routes := routes st; served := S (served st) |}, Some err)
  | None =>
      let r := {| bgp.Service := service; bgp.Proxy := proxy |} in
      ({| routes := if has_route (route_key r) (routes st)
                    then routes st else routes st ++ [r];
          served := S (served st) |}, None)
  end.

Definition Delete (fault : nat → option error) (route : bgp.ExternalIPRoute)
    (st : ExternalIPRoutesStore) : ExternalIPRoutesStore * option error :=
  match fault (served st) with
  | Some err => ({| routes := routes st; served := S (served st) |}, Some err)
  | None =>
      ({| routes := filter (λ r, route_key r ≠ route_key route) (routes st);
          served := S (served st) |}, None)
  end.

Definition store (fault : nat → option error) : RouteStore ExternalIPRoutesStore :=
  {| routes_List := List; routes_Add := Add fault; routes_Delete := Delete fault |}.

(** The route set of a store: the keys of the routes [List] gives. *)
Definition route_set (st : ExternalIPRoutesStore) : gset (string * string) :=
  list_to_set (route_key <$> List st).

End routes_model.

(** The effect of a successful call on the route set. *)
Definition apply_call (routes : gset (string * string)) (call : Call) :
    gset (string * string) :=
  match call with
  | CallDelete r => routes ∖ {[routes_model.route_key r]}
  | CallAdd s p =>
      routes ∪ {[(cache.MetaNamespaceKeyFunc s, cache.MetaNamespaceKeyFunc p)]}
  end.

Definition add_key_of (call : Call) : option (string * string) :=
  match call with
  | CallDelete _ => None
  | CallAdd s p => Some (cache.MetaNamespaceKeyFunc s, cache.MetaNamespaceKeyFunc p)
  end.

(** The routes the caches call for: a pair for every cached proxy and every
    cached service whose key has an entry in the endpoints store. *)
Definition desired_routes (c : ExternalServicesController) : gset (string * string) :=
  list_to_set
    (p ← cache.List (proxies c);
     s ← cache.List (services c);
     if cache.exists_ (endpoints c) s
     then [(cache.MetaNamespaceKeyFunc s, cache.MetaNamespaceKeyFunc p)]
     else []).

(** Every object of a store sits under its own key, as [Add] puts it. *)
Definition keyed {T} `{Object T} (items : gmap string T) : Prop :=
  ∀ k obj, items !! k = Some obj → cache.DeletionHandlingMetaNamespaceKeyFunc obj = k.

(** The number of entries of a store under the key of [obj]. *)
Definition entries {T U} `{Object U} (items : gmap string T) (obj : U) : nat :=
  length (filter (λ kv, kv.1 = cache.DeletionHandlingMetaNamespaceKeyFunc obj)
                 (map_to_list items)).

(** ** What the stores hold *)

(** Every cached proxy reports the comparison string as its host address. *)
Definition proxies_on_host (c : ExternalServicesController) : Prop :=
  ∀ k pod, proxies c !! k = Some pod →
    v1.HostIP (v1.pod_Status pod) = net.String_ (net.To4 (hostIP c)).

(** Every cached endpoints object has a subset with an address. *)
Definition endpoints_all_ready (c : ExternalServicesController) : Prop :=
  ∀ k e, endpoints c !! k = Some e → subsets_ready (v1.Subsets e) = true.

(** The objects of the three stores sit under their own keys. *)
Definition stores_keyed (c : ExternalServicesController) : Prop :=
  keyed (proxies c) ∧ keyed (services c) ∧ keyed (endpoints c).

(** ** The readiness filters, as the add handlers test them *)
Section Filters.
Context `{Imports}.

(** Lines 82 to 91 of [podAdd]: name prefix, namespace, host address, and the
    pod's readiness. *)
Definition proxy_ready (c : ExternalServicesController) (pod : v1.Pod) : bool :=
  String.prefix KubeProxyPrefix (v1.Name (v1.pod_ObjectMeta pod))
  && String.eqb (v1.Namespace (v1.pod_ObjectMeta pod)) KubeProxyNamespace
  && String.eqb (v1.HostIP (v1.pod_Status pod)) (net.String_ (net.To4 (hostIP c)))
  && IsPodReady pod.

(** Line 138 of [serviceAdd]. *)
Definition service_eligible (service : v1.Service) : bool :=
  negb (Nat.eqb (length (v1.ExternalIPs (v1.service_Spec service))) 0).

(** Lines 167 to 173 of [endpointsAdd]. *)
Definition endpoints_ready (endpoints_ : v1.Endpoints) : bool :=
  subsets_ready (v1.Subsets endpoints_).

End Filters.

(** ** Sample objects *)

(** The values kube-parrot gives the imports: the prefix and namespace of the
    kube-proxy pods, and the [Ready] condition of a pod. *)
Definition kube_parrot : Imports :=
  {| KubeProxyPrefix := "kube-proxy";
     KubeProxyNamespace := "kube-system";
     IsPodReady := λ pod,
       existsb (λ cond, String.eqb (v1.Type_ cond) "Ready"
                        && String.eqb (v1.Status cond) "True")
               (v1.Conditions (v1.pod_Status pod)) |}.

Definition ip_loopback4 : net.IP := [x7f; x00; x00; x01].
Definition ip_node4 : net.IP := [x0a; x00; x00; x05].
Definition ip_mapped4 : net.IP :=
  [x00; x00; x00; x00; x00; x00; x00; x00; x00; x00; xff; xff; xc0; xa8; x01; x02].
Definition ip_loopback6 : net.IP :=
  [x00; x00; x00; x00; x00; x00; x00; x00; x00; x00; x00; x00; x00; x00; x00; x01].
Definition ip_doc6 : net.IP :=
  [x20; x01; x0d; xb8; x00; x00; x00; x00; x00; x01; x00; x00; x00; x00; x00; x01].

Definition mk_pod (name host : string) (ready : bool) : v1.Pod :=
  {| v1.pod_ObjectMeta := {| v1.Name := name; v1.Namespace := "kube-system" |};
     v1.pod_Status :=
       {| v1.HostIP := host;
          v1.Conditions :=
            [{| v1.Type_ := "Ready";
                v1.Status := if ready then "True" else "False" |}] |} |}.

Definition mk_service (name : string) (ips : list string) : v1.Service :=
  {| v1.service_ObjectMeta := {| v1.Name := name; v1.Namespace := "default" |};
     v1.service_Spec := {| v1.ExternalIPs := ips |} |}.

Definition mk_endpoints (name : string) (subsets : list (list string)) : v1.Endpoints :=
  {| v1.endpoints_ObjectMeta := {| v1.Name := name; v1.Namespace := "default" |};
     v1.Subsets := (λ a, {| v1.Addresses := a |}) <$> subsets |}.

Definition proxy1 : v1.Pod := mk_pod "kube-proxy-x7k" "10.0.0.5" true.
Definition proxy2 : v1.Pod := mk_pod "kube-proxy-gone" "10.0.0.5" true.
Definition proxy_nil : v1.Pod := mk_pod "kube-proxy-x7k" "<nil>" true.
Definition proxy_far : v1.Pod := mk_pod "kube-proxy-q2m" "10.0.0.9" true.
Definition web : v1.Service := mk_service "web" ["1.2.3.4"].
Definition web_no_ips : v1.Service := mk_service "web" [].
Definition db : v1.Service := mk_service "db" ["1.2.3.9"].
Definition web_endpoints : v1.Endpoints := mk_endpoints "web" [["10.1.0.7"]].
Definition web_endpoints_empty : v1.Endpoints := mk_endpoints "web" [[]].

Definition never : nat → option error := λ _, None.

Definition first_call_fails : nat → option error :=
  λ n, match n with O => Some "session closed" | S _ => None end.

Definition route (s : v1.Service) (p : v1.Pod) : bgp.ExternalIPRoute :=
  {| bgp.Service := s; bgp.Proxy := p |}.

(** One ready proxy on the node, the service [web] and its endpoints. *)
Definition one_of_each : ExternalServicesController :=
  @deliver kube_parrot
    [PodAdd proxy1; ServiceAdd web; EndpointsAdd web_endpoints]
    (NewExternalServicesController ip_node4).

Definition routes_of (l : list bgp.ExternalIPRoute) : routes_model.ExternalIPRoutesStore :=
  {| routes_model.routes := l; routes_model.served := 0 |}.

(** The route list a run leaves behind when no call fails. *)
Definition routes_after (c : ExternalServicesController)
    (l : list bgp.ExternalIPRoute) : list bgp.ExternalIPRoute :=
  routes_model.List
    (store (@run_reconcile _ (routes_model.store never) c (routes_of l)).1).

(** The characters of the text form of an address: hexadecimal digits, the
    dot of IPv4 and the colon of IPv6. *)
Definition address_char (a : ascii) : bool :=
  let n := N_of_ascii a in
  ((48 <=? n) && (n <=? 58) || (97 <=? n) && (n <=? 102)
   || (65 <=? n) && (n <=? 70) || (n =? 46))%N.

Fixpoint address_chars (s : string) : bool :=
  match s with
  | EmptyString => true
  | String a s' => address_char a && address_chars s'
  end.

(** ** Notifications and calls, by kind *)

(** The key of the object a notification is about; for an update, the new
    object, the only one the update handlers read. *)
Definition event_key (e : Event) : string :=
  match e with
  | PodAdd obj | PodUpdate _ obj | PodDelete obj =>
      cache.DeletionHandlingMetaNamespaceKeyFunc obj
  | ServiceAdd obj | ServiceUpdate _ obj | ServiceDelete obj =>
      cache.DeletionHandlingMetaNamespaceKeyFunc obj
  | EndpointsAdd obj | EndpointsUpdate _ obj | EndpointsDelete obj =>
      cache.DeletionHandlingMetaNamespaceKeyFunc obj
  end.

(** The [exists] test of the handler of a notification: whether the store of
    the object's kind has an entry under the object's key. *)
Definition present (c : ExternalServicesController) (e : Event) : bool :=
  match e with
  | PodAdd obj | PodUpdate _ obj | PodDelete obj => cache.exists_ (proxies c) obj
  | ServiceAdd obj | ServiceUpdate _ obj | ServiceDelete obj =>
      cache.exists_ (services c) obj
  | EndpointsAdd obj | EndpointsUpdate _ obj | EndpointsDelete obj =>
      cache.exists_ (endpoints c) obj
  end.

Definition is_service_delete (e : Event) : bool :=
  match e with ServiceDelete _ => true | _ => false end.

Definition is_delete (call : Call) : bool :=
  match call with CallDelete _ => true | CallAdd _ _ => false end.

Section Candidates.
Context `{Imports}.

(** Lines 82 to 89 of [podAdd]: the tests a pod passes before its readiness
    is looked at. *)
Definition proxy_candidate (c : ExternalServicesController) (pod : v1.Pod) : bool :=
  String.prefix KubeProxyPrefix (v1.Name (v1.pod_ObjectMeta pod))
  && String.eqb (v1.Namespace (v1.pod_ObjectMeta pod)) KubeProxyNamespace
  && String.eqb (v1.HostIP (v1.pod_Status pod)) (net.String_ (net.To4 (hostIP c))).

(** Every cached proxy passed every test of [podAdd]. *)
Definition proxies_filtered (c : ExternalServicesController) : Prop :=
  ∀ k pod, proxies c !! k = Some pod → proxy_ready c pod = true.

(** Every cached service has an external IP. *)
Definition services_eligible (c : ExternalServicesController) : Prop :=
  ∀ k service, services c !! k = Some service → service_eligible service = true.

End Candidates.

(** The service [web] after its external IP has changed, and the proxy
    [proxy1] after it has stopped being ready. *)
Definition web_moved : v1.Service := mk_service "web" ["5.6.7.8"].
Definition proxy1_unready : v1.Pod := mk_pod "kube-proxy-x7k" "10.0.0.5" false.

(** The pod a pod notification hands to [podAdd]: the object of an add, the
    new object of an update. *)
Definition added_pod (e : Event) : option v1.Pod :=
  match e with
  | PodAdd obj | PodUpdate _ obj => Some obj
  | _ => None
  end.

(** The pods of the notifications report a host address, or none yet (the
    empty string), and never the text ["<nil>"], which Go prints for a nil
    address and which is no address. *)
Definition hosts_reported (events : list Event) : Prop :=
  ∀ e pod, e ∈ events → added_pod e = Some pod →
    v1.HostIP (v1.pod_Status pod) ≠ "<nil>".

(** No cached proxy reports the text ["<nil>"]. *)
Definition proxies_report_host (c : ExternalServicesController) : Prop :=
  ∀ k pod, proxies c !! k = Some pod → v1.HostIP (v1.pod_Status pod) ≠ "<nil>".

(** * Properties *)

(** ** Addresses *)

Example String_loopback4 : net.String_ ip_loopback4 = "127.0.0.1".
Proof. reflexivity. Qed.

Example String_mapped4 : net.String_ ip_mapped4 = "192.168.1.2".
Proof. reflexivity. Qed.

Example String_loopback6 : net.String_ ip_loopback6 = "::1".
Proof. reflexivity. Qed.

Example String_doc6 : net.String_ ip_doc6 = "2001:db8::1:0:0:1".
Proof. reflexivity. Qed.

Example To4_loopback6 : net.To4 ip_loopback6 = [].
Proof. reflexivity. Qed.

(** [To4] gives nil or four bytes. *)
Lemma To4_shape (ip : net.IP) :
  net.To4 ip = [] ∨ ∃ a b c d, net.To4 ip = [a; b; c; d].
Proof.
  unfold net.To4.
  destruct (Nat.eqb (length ip) net.IPv4len) eqn:E4.
  - apply Nat.eqb_eq in E4.
    destruct ip as [|a [|b [|c [|d [|e ip]]]]]; try discriminate E4.
    right. by exists a, b, c, d.
  - destruct (Nat.eqb (length ip) net.IPv6len && _ && _ && _) eqn:E6; [|by left].
    apply andb_prop in E6 as [E6 _]. apply andb_prop in E6 as [E6 _].
    apply andb_prop in E6 as [E6 _]. apply Nat.eqb_eq in E6.
    do 16 (destruct ip as [|? ip]; try discriminate E6).
    destruct ip; [|discriminate E6].
    right. cbn. eauto.
Qed.

(** [To4] of four bytes is these bytes. *)
Lemma To4_four (a b c d : byte) : net.To4 [a; b; c; d] = [a; b; c; d].
Proof. reflexivity. Qed.

(** For an address that has an IPv4 form, [String] prints that form: the
    string the pod handler compares with is then the node address itself. *)
Lemma String_To4 (ip : net.IP) :
  net.To4 ip ≠ [] → net.String_ (net.To4 ip) = net.String_ ip.
Proof.
  intros Hne. destruct (To4_shape ip) as [E|(a & b & c & d & E)]; [done|].
  rewrite E. unfold net.String_ at 1. rewrite To4_four.
  unfold net.String_. rewrite E.
  destruct ip; [discriminate E|done].
Qed.

(** With no IPv4 form the comparison string is the rendering of a nil slice. *)
Lemma String_To4_nil (ip : net.IP) :
  net.To4 ip = [] → net.String_ (net.To4 ip) = "<nil>".
Proof. by intros ->. Qed.

(** ** Stores *)

Lemma exists_true {T U} `{Object U} (items : gmap string T) (obj : U) :
  cache.exists_ items obj = true ↔
  is_Some (items !! cache.DeletionHandlingMetaNamespaceKeyFunc obj).
Proof.
  unfold cache.exists_, cache.Get.
  destruct (items !! _); split; intros Hx; eauto; try done; by destruct Hx.
Qed.

Lemma exists_false {T U} `{Object U} (items : gmap string T) (obj : U) :
  cache.exists_ items obj = false ↔
  items !! cache.DeletionHandlingMetaNamespaceKeyFunc obj = None.
Proof.
  unfold cache.exists_, cache.Get. destruct (items !! _); split; done.
Qed.

Lemma exists_Add {T} `{Object T} (obj : T) (items : gmap string T) :
  cache.exists_ (cache.Add obj items) obj = true.
Proof. apply exists_true. unfold cache.Add. rewrite lookup_insert_eq. by eexists. Qed.

Lemma exists_Delete {T U} `{Object U} (obj : U) (items : gmap string T) :
  cache.exists_ (cache.Delete obj items) obj = false.
Proof. apply exists_false. unfold cache.Delete. by rewrite lookup_delete_eq. Qed.

Lemma elem_of_List {T} (items : gmap string T) (obj : T) :
  obj ∈ cache.List items ↔ ∃ k, items !! k = Some obj.
Proof.
  unfold cache.List. rewrite list_elem_of_fmap. split.
  - intros ([k o] & -> & Hin). exists k. by apply elem_of_map_to_list.
  - intros (k & Hk). exists (k, obj). split; [done|]. by apply elem_of_map_to_list.
Qed.

Lemma filter_none {A} (P : A → Prop) `{∀ x, Decision (P x)} (l : list A) :
  (∀ x, x ∈ l → ¬ P x) → filter P l = [].
Proof.
  induction l as [|x l IH]; intros Hl; [done|].
  rewrite filter_cons_False by (apply Hl; left).
  apply IH. intros y Hy. apply Hl. by right.
Qed.

(** A key that is present has exactly one entry. *)
Lemma entries_present {T U} `{Object U} (items : gmap string T) (obj : U) :
  cache.exists_ items obj = true → entries items obj = 1.
Proof.
  intros [v Hv]%exists_true. unfold entries.
  set (k := cache.DeletionHandlingMetaNamespaceKeyFunc obj) in *.
  rewrite <- (insert_delete_id items k v) by done.
  rewrite map_to_list_insert by apply lookup_delete_eq.
  rewrite filter_cons_True by done. cbn. f_equal.
  rewrite filter_none; [done|].
  intros [k' v'] Hin%elem_of_map_to_list Hk. cbn in Hk. subst k'.
  by rewrite lookup_delete_eq in Hin.
Qed.

Lemma keyed_empty {T} `{Object T} : keyed (cache.NewStore (T := T)).
Proof. intros k obj Hl. unfold cache.NewStore in Hl. by rewrite lookup_empty in Hl. Qed.

Lemma keyed_Add {T} `{Object T} (obj : T) (items : gmap string T) :
  keyed items → keyed (cache.Add obj items).
Proof.
  intros Hk k o. unfold cache.Add. rewrite lookup_insert.
  case_decide; [intros [= <-]; done|apply Hk].
Qed.

Lemma keyed_Delete {T U} `{Object T} `{Object U} (obj : U) (items : gmap string T) :
  keyed items → keyed (cache.Delete obj items).
Proof.
  intros Hk k o. unfold cache.Delete. rewrite lookup_delete.
  case_decide; [done|apply Hk].
Qed.

(** ** The handlers *)
Section HandlerProperties.
Context `{Imports}.

(** What [podAdd] does once a pod has passed the filter. *)
Lemma podAdd_ready (pod : v1.Pod) (c : ExternalServicesController) :
  proxy_ready c pod = true →
  podAdd pod c =
    if cache.exists_ (proxies c) pod then c
    else Dirty (set_proxies (cache.Add pod) c).
Proof.
  unfold proxy_ready, podAdd. intros Hr.
  apply andb_prop in Hr as [Hr Hready]. apply andb_prop in Hr as [Hr Hhost].
  apply andb_prop in Hr as [Hprefix Hns].
  rewrite Hprefix, Hns, Hhost, Hready. cbn.
  by destruct (cache.exists_ (proxies c) pod).
Qed.

(** A pod whose host address is not the comparison string is ignored. *)
Lemma podAdd_other_host (pod : v1.Pod) (c : ExternalServicesController) :
  v1.HostIP (v1.pod_Status pod) ≠ net.String_ (net.To4 (hostIP c)) →
  podAdd pod c = c.
Proof.
  intros Hne. unfold podAdd.
  destruct (negb _ || negb _); [done|].
  apply String.eqb_neq in Hne. by rewrite Hne.
Qed.

Lemma serviceAdd_eligible (service : v1.Service) (c : ExternalServicesController) :
  service_eligible service = true →
  serviceAdd service c =
    if cache.exists_ (services c) service then c
    else Dirty (set_services (cache.Add service) c).
Proof.
  unfold service_eligible, serviceAdd. intros He.
  apply negb_true_iff in He. rewrite He.
  by destruct (cache.exists_ (services c) service).
Qed.

(** A service without external IPs changes nothing, cached or not. *)
Lemma serviceAdd_no_ips (service : v1.Service) (c : ExternalServicesController) :
  v1.ExternalIPs (v1.service_Spec service) = [] → serviceAdd service c = c.
Proof. intros He. unfold serviceAdd. by rewrite He. Qed.

(** [serviceDelete] calls [Dirty] whatever the store holds. *)
Lemma serviceDelete_dirty (service : v1.Service) (c : ExternalServicesController) :
  dirty (serviceDelete service c) = S (dirty c).
Proof. reflexivity. Qed.

Lemma endpointsAdd_ready (endpoints_ : v1.Endpoints) (c : ExternalServicesController) :
  endpoints_ready endpoints_ = true →
  endpointsAdd endpoints_ c =
    if cache.exists_ (endpoints c) endpoints_ then c
    else Dirty (set_endpoints (cache.Add endpoints_) c).
Proof.
  unfold endpoints_ready, endpointsAdd. intros ->.
  by destruct (cache.exists_ (endpoints c) endpoints_).
Qed.

(** The loop finds a subset with an address exactly when there is one. *)
Lemma subsets_ready_spec (subsets : list v1.EndpointSubset) :
  subsets_ready subsets = true ↔ ∃ v, v ∈ subsets ∧ v1.Addresses v ≠ [].
Proof.
  induction subsets as [|v rest IH]; cbn.
  - split; [done|]. intros (v & Hv & _). by apply elem_of_nil in Hv.
  - destruct (v1.Addresses v) as [|a l] eqn:Ea; cbn.
    + rewrite IH. split.
      * intros (w & Hw & Hne). exists w. split; [by right|done].
      * intros (w & Hw & Hne). apply elem_of_cons in Hw as [->|Hw]; [done|eauto].
    + split; [|done]. intros _. exists v. split; [by left|by rewrite Ea].
Qed.

(** No handler touches the node address. *)
Lemma handle_hostIP (c : ExternalServicesController) (e : Event) :
  hostIP (handle c e) = hostIP c.
Proof.
  destruct e; cbn;
    unfold podUpdate, podAdd, podDelete, serviceUpdate, serviceAdd, serviceDelete,
      endpointsUpdate, endpointsAdd, endpointsDelete;
    repeat case_match; reflexivity.
Qed.

Lemma podDelete_on_host (pod : v1.Pod) (c : ExternalServicesController) :
  proxies_on_host c → proxies_on_host (podDelete pod c).
Proof.
  intros Hinv. unfold podDelete. case_match; [|done].
  intros k p. cbn. unfold cache.Delete. rewrite lookup_delete.
  case_decide; [done|apply Hinv].
Qed.

Lemma podAdd_on_host (pod : v1.Pod) (c : ExternalServicesController) :
  proxies_on_host c → proxies_on_host (podAdd pod c).
Proof.
  intros Hinv. unfold podAdd.
  destruct (negb _ || negb _); [done|].
  destruct (String.eqb _ _) eqn:Ehost; cbn; [|done].
  apply String.eqb_eq in Ehost.
  destruct (IsPodReady pod).
  - destruct (cache.exists_ (proxies c) pod); cbn; [done|].
    intros k p. cbn. unfold cache.Add. rewrite lookup_insert.
    case_decide; [by intros [= <-]|apply Hinv].
  - destruct (cache.exists_ (proxies c) pod); cbn; [|done].
    intros k p. cbn. unfold cache.Delete. rewrite lookup_delete.
    case_decide; [done|apply Hinv].
Qed.

Lemma handle_on_host (c : ExternalServicesController) (e : Event) :
  proxies_on_host c → proxies_on_host (handle c e).
Proof.
  intros Hinv. destruct e; cbn;
    try (by apply podAdd_on_host); try (by apply podDelete_on_host);
    unfold serviceUpdate, serviceAdd, serviceDelete,
      endpointsUpdate, endpointsAdd, endpointsDelete;
    repeat case_match; exact Hinv.
Qed.

Lemma deliver_cons (e : Event) (events : list Event) (c : ExternalServicesController) :
  deliver (e :: events) c = deliver events (handle c e).
Proof. reflexivity. Qed.

Lemma deliver_on_host (events : list Event) (c : ExternalServicesController) :
  proxies_on_host c →
  proxies_on_host (deliver events c) ∧ hostIP (deliver events c) = hostIP c.
Proof.
  revert c. induction events as [|e events IH]; intros c Hinv; [done|].
  rewrite deliver_cons.
  destruct (IH (handle c e)) as [IH1 IH2]; [by apply handle_on_host|].
  split; [done|]. by rewrite IH2, handle_hostIP.
Qed.

Lemma endpointsDelete_all_ready (obj : v1.Endpoints) (c : ExternalServicesController) :
  endpoints_all_ready c → endpoints_all_ready (endpointsDelete obj c).
Proof.
  intros Hinv. unfold endpointsDelete. case_match; [|done].
  intros k e. cbn. unfold cache.Delete. rewrite lookup_delete.
  case_decide; [done|apply Hinv].
Qed.

Lemma endpointsAdd_all_ready (obj : v1.Endpoints) (c : ExternalServicesController) :
  endpoints_all_ready c → endpoints_all_ready (endpointsAdd obj c).
Proof.
  intros Hinv. unfold endpointsAdd.
  destruct (subsets_ready (v1.Subsets obj)) eqn:Er.
  - destruct (cache.exists_ (endpoints c) obj); cbn; [done|].
    intros k e. cbn. unfold cache.Add. rewrite lookup_insert.
    case_decide; [by intros [= <-]|apply Hinv].
  - destruct (cache.exists_ (endpoints c) obj); cbn; [|done].
    intros k e. cbn. unfold cache.Delete. rewrite lookup_delete.
    case_decide; [done|apply Hinv].
Qed.

Lemma handle_all_ready (c : ExternalServicesController) (e : Event) :
  endpoints_all_ready c → endpoints_all_ready (handle c e).
Proof.
  intros Hinv. destruct e; cbn;
    try (by apply endpointsAdd_all_ready); try (by apply endpointsDelete_all_ready);
    unfold podUpdate, podAdd, podDelete, serviceUpdate, serviceAdd, serviceDelete;
    repeat case_match; exact Hinv.
Qed.

Lemma deliver_all_ready (events : list Event) (c : ExternalServicesController) :
  endpoints_all_ready c → endpoints_all_ready (deliver events c).
Proof.
  revert c. induction events as [|e events IH]; intros c Hinv; [done|].
  rewrite deliver_cons. apply IH. by apply handle_all_ready.
Qed.

End HandlerProperties.

(** ** The claims about the handlers *)
Section HandlerClaims.
Context `{Imports}.

(** C6 (add-path idempotence). For each of the three kinds: when the add
    handler has run once with an object that passes the kind's filter, the
    store holds exactly one entry under the object's key, and running the
    handler again with the same object gives back the same controller state:
    the three stores are as they were and [Dirty] has not been called again. *)
Theorem add_twice_is_add_once :
  (∀ c pod, proxy_ready c pod = true →
     let c1 := podAdd pod c in
     entries (proxies c1) pod = 1 ∧ podAdd pod c1 = c1)
  ∧ (∀ c service, service_eligible service = true →
     let c1 := serviceAdd service c in
     entries (services c1) service = 1 ∧ serviceAdd service c1 = c1)
  ∧ (∀ c endpoints_, endpoints_ready endpoints_ = true →
     let c1 := endpointsAdd endpoints_ c in
     entries (endpoints c1) endpoints_ = 1 ∧ endpointsAdd endpoints_ c1 = c1).
Proof.
  split; [|split].
  - intros c pod Hr c1.
    assert (Hr1 : proxy_ready c1 pod = true).
    { subst c1. rewrite podAdd_ready by done.
      destruct (cache.exists_ (proxies c) pod); done. }
    assert (He : cache.exists_ (proxies c1) pod = true).
    { subst c1. rewrite podAdd_ready by done.
      destruct (cache.exists_ (proxies c) pod) eqn:E; [done|apply exists_Add]. }
    split; [by apply entries_present|].
    rewrite (podAdd_ready pod c1) by done. by rewrite He.
  - intros c service Hr c1.
    assert (He : cache.exists_ (services c1) service = true).
    { subst c1. rewrite serviceAdd_eligible by done.
      destruct (cache.exists_ (services c) service) eqn:E; [done|apply exists_Add]. }
    split; [by apply entries_present|].
    rewrite (serviceAdd_eligible service c1) by done. by rewrite He.
  - intros c e Hr c1.
    assert (He : cache.exists_ (endpoints c1) e = true).
    { subst c1. rewrite endpointsAdd_ready by done.
      destruct (cache.exists_ (endpoints c) e) eqn:E; [done|apply exists_Add]. }
    split; [by apply entries_present|].
    rewrite (endpointsAdd_ready e c1) by done. by rewrite He.
Qed.

(** The comparison string of cached proxies. Starting from the empty stores
    of a new controller, after any sequence of notifications every pod in the
    proxies store reports as its host address the string the handler compares
    with, [hostIP.To4().String()]: the node address itself when that address
    has an IPv4 form, and the text ["<nil>"] when it has none. *)
Theorem cached_proxy_host_address (ip : net.IP) (events : list Event)
    (k : string) (pod : v1.Pod) :
  proxies (deliver events (NewExternalServicesController ip)) !! k = Some pod →
  v1.HostIP (v1.pod_Status pod) = net.String_ (net.To4 ip)
  ∧ (net.To4 ip ≠ [] → v1.HostIP (v1.pod_Status pod) = net.String_ ip)
  ∧ (net.To4 ip = [] → v1.HostIP (v1.pod_Status pod) = "<nil>").
Proof.
  intros Hk.
  destruct (deliver_on_host events (NewExternalServicesController ip)) as [Hinv Hip].
  { intros k' p Hl. cbn in Hl. unfold cache.NewStore in Hl.
    by rewrite lookup_empty in Hl. }
  specialize (Hinv k pod Hk). rewrite Hip in Hinv. cbn in Hinv.
  split; [done|]. split.
  - intros Hne. by rewrite Hinv, String_To4.
  - intros He. by rewrite Hinv, String_To4_nil.
Qed.

(** C8 (endpoints readiness). Starting from the empty stores of a new
    controller, after any sequence of notifications every object in the
    endpoints store has a subset whose address list is not empty. *)
Theorem cached_endpoints_have_address (ip : net.IP) (events : list Event)
    (k : string) (e : v1.Endpoints) :
  endpoints (deliver events (NewExternalServicesController ip)) !! k = Some e →
  ∃ v, v ∈ v1.Subsets e ∧ v1.Addresses v ≠ [].
Proof.
  intros Hk. apply subsets_ready_spec.
  refine (deliver_all_ready events (NewExternalServicesController ip) _ k e Hk).
  intros k' e' Hl. cbn in Hl. unfold cache.NewStore in Hl.
  by rewrite lookup_empty in Hl.
Qed.

(** C10 (a node address without IPv4 form). When [hostIP.To4()] is nil the
    handler compares the pod's host address with ["<nil>"]; a pod that
    reports any other string, so every pod that reports an address, is
    ignored by [podAdd] and [podUpdate]: nothing is inserted, the controller
    state is unchanged. *)
Theorem no_proxy_cached_without_ipv4 (c : ExternalServicesController)
    (old pod : v1.Pod) :
  net.To4 (hostIP c) = [] →
  v1.HostIP (v1.pod_Status pod) ≠ "<nil>" →
  net.String_ (net.To4 (hostIP c)) = "<nil>"
  ∧ podAdd pod c = c
  ∧ podUpdate old pod c = c.
Proof.
  intros Hnil Hne.
  assert (Hs : net.String_ (net.To4 (hostIP c)) = "<nil>") by by rewrite Hnil.
  split; [done|].
  unfold podUpdate. split; apply podAdd_other_host; by rewrite Hs.
Qed.

End HandlerClaims.

(** No text made of address characters is ["<nil>"]. *)
Lemma address_chars_not_nil (s : string) : address_chars s = true → s ≠ "<nil>".
Proof. intros Ha ->. discriminate Ha. Qed.

(** ** The handlers on the sample objects *)

(** C6 at the proxy [proxy1] on its own node, the service [web] and its
    endpoints, each arriving at a new controller. *)
Lemma add_twice_is_add_once_sample :
  let c := NewExternalServicesController ip_node4 in
  (entries (proxies (@podAdd kube_parrot proxy1 c)) proxy1 = 1
   ∧ @podAdd kube_parrot proxy1 (@podAdd kube_parrot proxy1 c)
     = @podAdd kube_parrot proxy1 c)
  ∧ (entries (services (serviceAdd web c)) web = 1
     ∧ serviceAdd web (serviceAdd web c) = serviceAdd web c)
  ∧ (entries (endpoints (endpointsAdd web_endpoints c)) web_endpoints = 1
     ∧ endpointsAdd web_endpoints (endpointsAdd web_endpoints c)
       = endpointsAdd web_endpoints c).
Proof.
  intros c.
  destruct (@add_twice_is_add_once kube_parrot) as (Hp & Hs & He).
  split; [|split].
  - apply (Hp c proxy1). reflexivity.
  - apply (Hs c web). reflexivity.
  - apply (He c web_endpoints). reflexivity.
Defined.

(** The comparison string at a node with an IPv4 address and one ready proxy
    on it. *)
Lemma cached_proxy_host_address_sample :
  v1.HostIP (v1.pod_Status proxy1) = net.String_ (net.To4 ip_node4)
  ∧ (net.To4 ip_node4 ≠ [] → v1.HostIP (v1.pod_Status proxy1) = net.String_ ip_node4)
  ∧ (net.To4 ip_node4 = [] → v1.HostIP (v1.pod_Status proxy1) = "<nil>").
Proof.
  apply (@cached_proxy_host_address kube_parrot ip_node4 [PodAdd proxy1]
           "kube-system/kube-proxy-x7k" proxy1).
  vm_compute. reflexivity.
Defined.

(** What a pod must not report. On a node whose address is the IPv6 loopback
    the comparison string is ["<nil>"]: a ready kube-proxy pod that reports
    the text ["<nil>"], which is no address, in place of its host address is
    cached. The host-address invariant is therefore stated for notifications
    whose pods report something else. *)
Lemma cached_proxy_not_on_node_address :
  ¬ (∀ (I : Imports) (ip : net.IP) (events : list Event) (k : string) (pod : v1.Pod),
       proxies (deliver events (NewExternalServicesController ip)) !! k = Some pod →
       v1.HostIP (v1.pod_Status pod) = net.String_ ip).
Proof.
  intros Hclaim.
  specialize (Hclaim kube_parrot ip_loopback6 [PodAdd proxy_nil]
                "kube-system/kube-proxy-x7k" proxy_nil).
  assert (Hcached :
    proxies (@deliver kube_parrot [PodAdd proxy_nil]
               (NewExternalServicesController ip_loopback6))
      !! "kube-system/kube-proxy-x7k" = Some proxy_nil) by (vm_compute; reflexivity).
  specialize (Hclaim Hcached). vm_compute in Hclaim. discriminate Hclaim.
Qed.

(** C8 at the endpoints of [web], added with one address. *)
Lemma cached_endpoints_have_address_sample :
  ∃ v, v ∈ v1.Subsets web_endpoints ∧ v1.Addresses v ≠ [].
Proof.
  apply (@cached_endpoints_have_address kube_parrot ip_node4
           [EndpointsAdd web_endpoints] "default/web" web_endpoints).
  vm_compute. reflexivity.
Defined.

(** C10 at a node whose address is the IPv6 loopback and a ready kube-proxy
    pod that reports the address 10.0.0.5. *)
Lemma no_proxy_cached_without_ipv4_sample :
  let c := NewExternalServicesController ip_loopback6 in
  net.String_ (net.To4 (hostIP c)) = "<nil>"
  ∧ @podAdd kube_parrot proxy1 c = c
  ∧ @podUpdate kube_parrot proxy2 proxy1 c = c.
Proof.
  intros c.
  apply (@no_proxy_cached_without_ipv4 kube_parrot c proxy2 proxy1).
  - reflexivity.
  - apply address_chars_not_nil. reflexivity.
Defined.

(** C2 on the code. The service [web] is cached with one external IP; an
    update that carries the same service with no external IP leaves it in the
    store and does not call [Dirty]: [serviceAdd] returns at its first test. *)
Theorem service_update_without_ips_keeps_service :
  let c := @deliver kube_parrot [ServiceAdd web] (NewExternalServicesController ip_node4) in
  v1.ExternalIPs (v1.service_Spec web_no_ips) = []
  ∧ cache.exists_ (services c) web_no_ips = true
  ∧ cache.exists_ (services (serviceUpdate web web_no_ips c)) web_no_ips = true
  ∧ dirty (serviceUpdate web web_no_ips c) = dirty c
  ∧ serviceUpdate web web_no_ips c = c.
Proof. vm_compute. repeat split. Qed.

(** C3 on the code. Deleting a service that is not in the store leaves the
    store as it is, and still calls [Dirty]. *)
Theorem service_delete_uncached_raises_dirty :
  let c := NewExternalServicesController ip_node4 in
  cache.exists_ (services c) web_no_ips = false
  ∧ services (serviceDelete web_no_ips c) = services c
  ∧ dirty c = 0
  ∧ dirty (serviceDelete web_no_ips c) = 1.
Proof. vm_compute. repeat split. Qed.

(** ** [reconcile] as a sequence of calls *)
Section Plan.
Context {RS : Type} `{RouteStore RS}.

Lemma bind_unit_l (m : M RS ()) (w : World RS) : (mret () ≫= λ _, m) w = m w.
Proof. reflexivity. Qed.

Lemma bind_unit_r (m : M RS ()) (w : World RS) : (m ≫= λ _, mret ()) w = m w.
Proof.
  unfold mbind, M_bind. destruct (m w) as [w' [err|[]]]; reflexivity.
Qed.

Lemma bind_ext (m : M RS ()) (k1 k2 : M RS ()) (w : World RS) :
  (∀ w', k1 w' = k2 w') → (m ≫= λ _, k1) w = (m ≫= λ _, k2) w.
Proof.
  intros Hk. unfold mbind, M_bind. destruct (m w) as [w' [err|[]]]; [done|apply Hk].
Qed.

Lemma bind_ext_l (m1 m2 : M RS ()) (k : M RS ()) (w : World RS) :
  m1 w = m2 w → (m1 ≫= λ _, k) w = (m2 ≫= λ _, k) w.
Proof. intros Hm. unfold mbind, M_bind. by rewrite Hm. Qed.

Lemma bind_assoc (m1 m2 m3 : M RS ()) (w : World RS) :
  ((m1 ≫= λ _, m2) ≫= λ _, m3) w = (m1 ≫= λ _, (m2 ≫= λ _, m3)) w.
Proof.
  unfold mbind, M_bind. destruct (m1 w) as [w' [err|[]]]; reflexivity.
Qed.

Lemma for_range_app {A} (xs ys : list A) (body : A → M RS ()) (w : World RS) :
  for_range (xs ++ ys) body w = (for_range xs body ≫= λ _, for_range ys body) w.
Proof.
  revert w. induction xs as [|x xs IH]; intros w; [done|].
  cbn [app for_range]. rewrite bind_assoc. apply bind_ext. exact IH.
Qed.

(** A loop whose body issues the calls [plan x] issues the calls of the whole
    list, one element after the other. *)
Lemma for_range_plan {A} (xs : list A) (body : A → M RS ()) (plan : A → list Call) :
  (∀ x w, body x w = for_range (plan x) issue w) →
  ∀ w, for_range xs body w = for_range (x ← xs; plan x) issue w.
Proof.
  intros Hbody. induction xs as [|x xs IH]; intros w; [done|].
  cbn [for_range mbind list_bind]. change (mbind plan xs) with (x ← xs; plan x).
  rewrite for_range_app.
  etrans; [apply bind_ext; exact IH|].
  apply bind_ext_l, Hbody.
Qed.

Lemma prune_plan (c : ExternalServicesController) (route : bgp.ExternalIPRoute)
    (w : World RS) :
  prune c route w
  = for_range (replicate (failed_checks c route) (CallDelete route)) issue w.
Proof.
  unfold prune, failed_checks.
  destruct (cache.exists_ (proxies c) _), (cache.exists_ (services c) _),
    (cache.exists_ (endpoints c) _); cbn [negb when_ Nat.add replicate for_range issue];
    rewrite ?bind_unit_l, ?bind_unit_r; try reflexivity;
    repeat (apply bind_ext; intros ?); rewrite ?bind_unit_l, ?bind_unit_r;
    reflexivity.
Qed.

Lemma converge_plan (c : ExternalServicesController) (proxy : v1.Pod) (w : World RS) :
  converge c proxy w
  = for_range (service ← cache.List (services c);
               if cache.exists_ (endpoints c) service
               then [CallAdd service proxy] else []) issue w.
Proof.
  unfold converge. apply for_range_plan. intros service w'.
  destruct (cache.exists_ (endpoints c) service); cbn [when_ for_range issue];
    by rewrite ?bind_unit_r.
Qed.

(** [reconcile] issues the planned deletes for the route list it read, then
    the planned adds, and stops at the first call that reports an error. *)
Lemma reconcile_plan (c : ExternalServicesController) (w : World RS) :
  reconcile c w
  = for_range (planned_deletes c (routes_List (store w)) ++ planned_adds c) issue w.
Proof.
  unfold reconcile. rewrite for_range_app.
  change ((List_ ≫= λ routes, for_range routes (prune c) ≫= λ _,
             for_range (cache.List (proxies c)) (converge c)) w)
    with ((for_range (routes_List (store w)) (prune c) ≫= λ _,
             for_range (cache.List (proxies c)) (converge c)) w).
  etrans; [apply bind_ext; intros w'; apply for_range_plan, converge_plan|].
  apply bind_ext_l. apply for_range_plan, prune_plan.
Qed.

End Plan.

(** ** The call log of a run *)

Lemma deleted_calls (log : list (Call * option error)) :
  deleted log = omap delete_of log.*1.
Proof.
  unfold deleted. induction log as [|[call e] log IH]; [done|].
  cbn. rewrite <- IH. by destruct call.
Qed.

(** A log that ends in the only failed call cannot hold a failed call
    earlier. *)
Lemma failed_call_is_last (pre pre' post : list (Call * option error))
    (call call' : Call) (err err' : error) :
  pre ++ (call, Some err) :: post = pre' ++ [(call', Some err')] →
  succeeded pre' →
  post = [] ∧ call = call' ∧ err = err'.
Proof.
  revert pre'. induction pre as [|a pre IH]; intros [|a' pre'] Heq Hok.
  - by injection Heq as -> -> ->.
  - injection Heq as <- _. apply Forall_cons in Hok as [Hok _]. done.
  - injection Heq as _ Heq. by destruct pre.
  - injection Heq as _ Heq. apply Forall_cons in Hok as [_ Hok]. by apply IH in Heq.
Qed.

Lemma omap_prefix {A B} (f : A → option B) (l1 l2 : list A) :
  l1 `prefix_of` l2 → omap f l1 `prefix_of` omap f l2.
Proof. intros [k ->]. rewrite omap_app. by eexists. Qed.

Lemma omap_bind_nil {A B C} (f : B → option C) (g : A → list B) (l : list A) :
  (∀ x, omap f (g x) = []) → omap f (x ← l; g x) = [].
Proof.
  intros Hg. induction l as [|x l IH]; [done|].
  cbn. change (mbind g l) with (x ← l; g x). by rewrite omap_app, Hg, IH.
Qed.

Lemma planned_adds_no_delete (c : ExternalServicesController) :
  omap delete_of (planned_adds c) = [].
Proof.
  unfold planned_adds. apply omap_bind_nil. intros proxy.
  apply omap_bind_nil. intros service. by destruct (cache.exists_ _ _).
Qed.

Section Log.
Context {RS : Type} `{RouteStore RS}.

Lemma issue_log (call : Call) (w : World RS) :
  ∃ e, calls (issue call w).1 = calls w ++ [(call, e)]
       ∧ (issue call w).2 = match e with Some err => inl err | None => inr () end.
Proof.
  destruct call as [route|service proxy]; cbn; unfold Delete_, Add_.
  - destruct (routes_Delete route (store w)) as [s e]. by exists e.
  - destruct (routes_Add service proxy (store w)) as [s e]. by exists e.
Qed.

(** The log of a call sequence: the calls are issued in order, up to and
    including the first that reports an error, and that error is the result. *)
Lemma for_range_issue_log (cs : list Call) (w : World RS) :
  ∃ new, calls (for_range cs issue w).1 = calls w ++ new
    ∧ new.*1 `prefix_of` cs
    ∧ (cs ≠ [] → new ≠ [])
    ∧ (((for_range cs issue w).2 = inr () ∧ new.*1 = cs ∧ succeeded new)
       ∨ (∃ pre call err,
            (for_range cs issue w).2 = inl err
            ∧ new = pre ++ [(call, Some err)] ∧ succeeded pre)).
Proof.
  revert w. induction cs as [|call cs IH]; intros w.
  - exists []. cbn. rewrite app_nil_r.
    split; [done|]. split; [done|]. split; [done|]. left.
    split_and!; [done|done|constructor].
  - cbn [for_range]. unfold mbind, M_bind.
    destruct (issue_log call w) as (e & Hlog & Hres).
    destruct (issue call w) as [w1 res1]. cbn in Hlog, Hres. subst res1.
    destruct e as [err|].
    + exists [(call, Some err)]. cbn.
      split; [done|]. split; [by exists cs|]. split; [done|].
      right. exists [], call, err. split_and!; [done|done|constructor].
    + destruct (IH w1) as (new & Hnew & Hpre & _ & Hcases).
      exists ((call, None) :: new). rewrite Hnew, Hlog, <- app_assoc.
      split; [done|]. split; [by apply prefix_cons|]. split; [done|].
      destruct Hcases as [(Hres & Hall & Hok)|(pre & call' & err & Hres & -> & Hok)].
      * left. split_and!; [done|by cbn; rewrite Hall|by constructor].
      * right. exists ((call, None) :: pre), call', err.
        split_and!; [done|done|by constructor].
Qed.

(** The routes [Delete] is called on in a run are an initial part of the
    planned ones, and all of them when no [Delete] reports an error. *)
Lemma deleted_prefix (c : ExternalServicesController) (s : RS) :
  deleted (calls (run_reconcile c s).1)
    `prefix_of` omap delete_of (planned_deletes c (routes_List s)).
Proof.
  unfold run_reconcile. rewrite reconcile_plan. cbn [store].
  destruct (for_range_issue_log
              (planned_deletes c (routes_List s) ++ planned_adds c)
              {| store := s; calls := [] |}) as (new & -> & Hpre & _).
  cbn. rewrite deleted_calls.
  apply (omap_prefix delete_of) in Hpre. rewrite omap_app in Hpre.
  replace (omap delete_of (planned_adds c)) with (@nil bgp.ExternalIPRoute) in Hpre;
    [by rewrite app_nil_r in Hpre|].
  symmetry. apply planned_adds_no_delete.
Qed.

End Log.

(** ** The planned deletes *)

Lemma planned_deletes_app (c : ExternalServicesController)
    (l1 l2 : list bgp.ExternalIPRoute) :
  planned_deletes c (l1 ++ l2) = planned_deletes c l1 ++ planned_deletes c l2.
Proof. unfold planned_deletes. apply bind_app. Qed.

Lemma planned_deletes_cons (c : ExternalServicesController)
    (r : bgp.ExternalIPRoute) (l : list bgp.ExternalIPRoute) :
  planned_deletes c (r :: l)
  = replicate (failed_checks c r) (CallDelete r) ++ planned_deletes c l.
Proof. reflexivity. Qed.

Lemma failed_checks_valid (c : ExternalServicesController) (r : bgp.ExternalIPRoute) :
  valid c r = true → failed_checks c r = 0.
Proof.
  unfold valid, failed_checks. intros Hv.
  apply andb_prop in Hv as [Hv ->]. apply andb_prop in Hv as [-> ->]. done.
Qed.

Lemma failed_checks_le (c : ExternalServicesController) (r : bgp.ExternalIPRoute) :
  (failed_checks c r ≤ 3)%nat.
Proof. unfold failed_checks. repeat case_match; lia. Qed.

Lemma planned_deletes_valid (c : ExternalServicesController)
    (l : list bgp.ExternalIPRoute) :
  Forall (λ r, valid c r = true) l → planned_deletes c l = [].
Proof.
  induction 1 as [|r l Hr _ IH]; [done|].
  by rewrite planned_deletes_cons, failed_checks_valid, IH.
Qed.

Lemma planned_deletes_are_deletes (c : ExternalServicesController)
    (l : list bgp.ExternalIPRoute) (call : Call) :
  call ∈ planned_deletes c l → ∃ r, call = CallDelete r ∧ r ∈ l.
Proof.
  unfold planned_deletes. intros (r & Hin & Hr)%list_elem_of_bind.
  apply elem_of_replicate in Hin as [-> _]. eauto.
Qed.

Lemma omap_delete_of_replicate (n : nat) (r : bgp.ExternalIPRoute) :
  omap delete_of (replicate n (CallDelete r)) = replicate n r.
Proof. induction n as [|n IH]; [done|]. cbn. by rewrite IH. Qed.

(** The routes of the planned deletes: every route of the list, as often as
    it fails a check. *)
Lemma planned_routes (c : ExternalServicesController) (l : list bgp.ExternalIPRoute) :
  omap delete_of (planned_deletes c l) = r ← l; replicate (failed_checks c r) r.
Proof.
  induction l as [|r l IH]; [done|].
  rewrite planned_deletes_cons, omap_app, omap_delete_of_replicate, IH. done.
Qed.

Lemma filter_replicate_eq {A} `{EqDecision A} (x : A) (n : nat) :
  filter (λ y, y = x) (replicate n x) = replicate n x.
Proof.
  induction n as [|n IH]; [done|]. cbn [replicate].
  rewrite filter_cons_True by done. by rewrite IH.
Qed.

(** A route that occurs once in the list is planned for deletion as often as
    it fails a check. *)
Lemma planned_count (c : ExternalServicesController)
    (l1 l2 : list bgp.ExternalIPRoute) (route : bgp.ExternalIPRoute) :
  route ∉ l1 → route ∉ l2 →
  length (filter (λ r, r = route)
            (omap delete_of (planned_deletes c (l1 ++ route :: l2))))
  = failed_checks c route.
Proof.
  intros H1 H2.
  assert (Hnone : ∀ l, route ∉ l →
    filter (λ r, r = route) (omap delete_of (planned_deletes c l)) = []).
  { intros l Hl. apply filter_none. intros r Hr ->.
    apply list_elem_of_omap in Hr as (call & Hcall & Hdel).
    apply planned_deletes_are_deletes in Hcall as (r & -> & Hr).
    cbn in Hdel. by injection Hdel as ->. }
  rewrite planned_deletes_app, planned_deletes_cons, !omap_app, !filter_app.
  rewrite (Hnone l1 H1), (Hnone l2 H2), omap_delete_of_replicate, filter_replicate_eq.
  rewrite app_nil_r. cbn. apply length_replicate.
Qed.

Section LogComplete.
Context {RS : Type} `{RouteStore RS}.

(** The first planned call is always issued. *)
Lemma first_call_issued (c : ExternalServicesController) (s : RS)
    (call : Call) (rest : list Call) :
  planned_deletes c (routes_List s) ++ planned_adds c = call :: rest →
  ∃ e tl, calls (run_reconcile c s).1 = (call, e) :: tl.
Proof.
  intros Hplan. unfold run_reconcile. rewrite reconcile_plan. cbn [store].
  rewrite Hplan.
  destruct (for_range_issue_log (call :: rest) {| store := s; calls := [] |})
    as (new & -> & Hpre & Hne & _).
  cbn. destruct new as [|[call' e] new]; [by destruct Hne|].
  destruct Hpre as [k Hk]. injection Hk as -> _. eauto.
Qed.

(** When no [Delete] of the run reports an error, [Delete] is called on all
    the planned routes. *)
Lemma deleted_all (c : ExternalServicesController) (s : RS) :
  (∀ r err, (CallDelete r, Some err) ∉ calls (run_reconcile c s).1) →
  deleted (calls (run_reconcile c s).1)
  = omap delete_of (planned_deletes c (routes_List s)).
Proof.
  unfold run_reconcile. rewrite reconcile_plan. cbn [store].
  set (D := planned_deletes c (routes_List s)).
  destruct (for_range_issue_log (D ++ planned_adds c) {| store := s; calls := [] |})
    as (new & -> & Hpre & _ & Hcases).
  cbn [calls app]. intros Hok. rewrite deleted_calls.
  destruct Hcases as [(_ & -> & _)|(pre & call & err & _ & -> & _)].
  - by rewrite omap_app, planned_adds_no_delete, app_nil_r.
  - destruct call as [r|service proxy].
    { exfalso. apply (Hok r err). apply elem_of_app. right. by left. }
    rewrite fmap_app in *. cbn [fmap list_fmap fst] in *.
    destruct (prefix_weak_total _ _ _ Hpre (prefix_app_r D D (planned_adds c) (reflexivity D)))
      as [Hin|[k Hk]].
    + exfalso. destruct Hin as [k Hk].
      assert (Hc : CallAdd service proxy ∈ D).
      { rewrite Hk. apply elem_of_app. left. apply elem_of_app. right. by left. }
      by apply planned_deletes_are_deletes in Hc as (r & Hr & _).
    + rewrite Hk, omap_app.
      destruct Hpre as [k' Hk']. rewrite Hk, <- app_assoc in Hk'.
      apply app_inv_head in Hk'.
      assert (Hnil : omap delete_of (k ++ k') = []) by (rewrite <- Hk'; apply planned_adds_no_delete).
      rewrite omap_app in Hnil. apply app_eq_nil in Hnil as [-> _].
      by rewrite app_nil_r.
Qed.

End LogComplete.

(** ** The claims about the calls [reconcile] issues

    These hold for every route store: nothing is assumed of what [List],
    [Add] and [Delete] do. *)
Section ReconcileClaims.
Context {RS : Type} `{RouteStore RS}.

(** C4 (prune correctness). When the route list holds one route whose proxy
    is not in the proxies store, and every other route of the list passes the
    three checks, a run of [reconcile] calls [Delete] on that route and on no
    other route. *)
Theorem only_the_stale_route_is_deleted (c : ExternalServicesController) (s : RS)
    (l1 l2 : list bgp.ExternalIPRoute) (route : bgp.ExternalIPRoute) :
  routes_List s = l1 ++ route :: l2 →
  cache.exists_ (proxies c) (bgp.Proxy route) = false →
  Forall (λ r, valid c r = true) (l1 ++ l2) →
  route ∈ deleted (calls (run_reconcile c s).1)
  ∧ ∀ r, r ∈ deleted (calls (run_reconcile c s).1) → r = route.
Proof.
  intros Hlist Hproxy Hvalid. apply Forall_app in Hvalid as [Hv1 Hv2].
  assert (Hplan : planned_deletes c (routes_List s)
                  = replicate (failed_checks c route) (CallDelete route)).
  { rewrite Hlist, planned_deletes_app, planned_deletes_cons.
    by rewrite !planned_deletes_valid, app_nil_r by done. }
  split.
  - assert (Hfirst : ∃ n, failed_checks c route = S n).
    { unfold failed_checks. rewrite Hproxy. eauto. }
    destruct Hfirst as [n Hn].
    destruct (first_call_issued c s (CallDelete route)
                (replicate n (CallDelete route) ++ planned_adds c)) as (e & tl & ->).
    { by rewrite Hplan, Hn. }
    cbn. by left.
  - intros r Hr.
    destruct (deleted_prefix c s) as [k Hk].
    rewrite Hplan, omap_delete_of_replicate in Hk.
    assert (Hin : r ∈ replicate (failed_checks c route) route).
    { rewrite Hk. apply elem_of_app. by left. }
    by apply elem_of_replicate_inv in Hin.
Qed.

(** C5 (abort on removal failure). When a [Delete] call of a run reports an
    error, the run returns that error, and the failed call is the last call of
    the run: no [Delete] and no [Add] is issued after it. *)
Theorem delete_error_ends_the_run (c : ExternalServicesController) (s : RS)
    (pre post : list (Call * option error)) (route : bgp.ExternalIPRoute)
    (err : error) :
  calls (run_reconcile c s).1 = pre ++ (CallDelete route, Some err) :: post →
  (run_reconcile c s).2 = inl err ∧ post = [].
Proof.
  unfold run_reconcile. rewrite reconcile_plan. cbn [store].
  destruct (for_range_issue_log
              (planned_deletes c (routes_List s) ++ planned_adds c)
              {| store := s; calls := [] |}) as (new & -> & _ & _ & Hcases).
  cbn [calls app]. intros Hlog.
  destruct Hcases as [(_ & _ & Hok)|(pre' & call' & err' & Hres & -> & Hok)].
  - exfalso. rewrite Hlog in Hok. apply Forall_app in Hok as [_ Hok].
    apply Forall_cons in Hok as [Hok _]. done.
  - symmetry in Hlog.
    destruct (failed_call_is_last _ _ _ _ _ _ _ Hlog Hok) as (-> & _ & ->). done.
Qed.

(** C9 (repeated deletes of one route), amended. In a run in which no
    [Delete] reports an error, a route that occurs once in the route list has
    [Delete] called on it once for each of the three checks it fails: as many
    times as [failed_checks] counts, up to three. *)
Theorem delete_called_per_failed_check (c : ExternalServicesController) (s : RS)
    (l1 l2 : list bgp.ExternalIPRoute) (route : bgp.ExternalIPRoute) :
  routes_List s = l1 ++ route :: l2 →
  route ∉ l1 → route ∉ l2 →
  (∀ r err, (CallDelete r, Some err) ∉ calls (run_reconcile c s).1) →
  length (filter (λ r, r = route) (deleted (calls (run_reconcile c s).1)))
  = failed_checks c route
  ∧ (failed_checks c route ≤ 3)%nat.
Proof.
  intros Hlist H1 H2 Hok. split; [|apply failed_checks_le].
  rewrite deleted_all by done. rewrite Hlist. by apply planned_count.
Qed.

End ReconcileClaims.

(** ** The route set after a run, on the route store of the spec *)

Lemma fold_adds (cs : list Call) (routes : gset (string * string)) :
  omap delete_of cs = [] →
  foldl apply_call routes cs = routes ∪ list_to_set (omap add_key_of cs).
Proof.
  revert routes. induction cs as [|[r|s p] cs IH]; intros routes Hnil; cbn.
  - set_solver.
  - discriminate Hnil.
  - rewrite IH by done. set_solver.
Qed.

Lemma fold_deletes (cs : list Call) (routes : gset (string * string)) :
  omap add_key_of cs = [] →
  foldl apply_call routes cs
  = routes ∖ list_to_set (routes_model.route_key <$> omap delete_of cs).
Proof.
  revert routes. induction cs as [|[r|s p] cs IH]; intros routes Hnil; cbn.
  - set_solver.
  - rewrite IH by done. set_solver.
  - discriminate Hnil.
Qed.

Lemma planned_deletes_no_add (c : ExternalServicesController)
    (l : list bgp.ExternalIPRoute) :
  omap add_key_of (planned_deletes c l) = [].
Proof.
  unfold planned_deletes. apply omap_bind_nil. intros r.
  induction (failed_checks c r) as [|n IH]; [done|exact IH].
Qed.

Lemma omap_bind {A B C} (f : B → option C) (g : A → list B) (l : list A) :
  omap f (x ← l; g x) = x ← l; omap f (g x).
Proof.
  induction l as [|x l IH]; [done|].
  cbn. change (mbind g l) with (x ← l; g x). by rewrite omap_app, IH.
Qed.

Lemma planned_adds_keys (c : ExternalServicesController) :
  list_to_set (omap add_key_of (planned_adds c)) = desired_routes c.
Proof.
  unfold planned_adds, desired_routes. f_equal.
  rewrite omap_bind. apply list_bind_ext; [|done]. intros p.
  rewrite omap_bind. apply list_bind_ext; [|done]. intros s.
  by destruct (cache.exists_ (endpoints c) s).
Qed.

Lemma desired_routes_spec (c : ExternalServicesController) (k : string * string) :
  k ∈ desired_routes c ↔
  ∃ s p, p ∈ cache.List (proxies c) ∧ s ∈ cache.List (services c)
         ∧ cache.exists_ (endpoints c) s = true
         ∧ k = (cache.MetaNamespaceKeyFunc s, cache.MetaNamespaceKeyFunc p).
Proof.
  unfold desired_routes. rewrite elem_of_list_to_set, list_elem_of_bind. split.
  - intros (p & (s & Hk & Hs)%list_elem_of_bind & Hp).
    destruct (cache.exists_ (endpoints c) s) eqn:E; [|by apply elem_of_nil in Hk].
    apply list_elem_of_singleton in Hk. by exists s, p.
  - intros (s & p & Hp & Hs & He & ->). exists p. split; [|done].
    apply list_elem_of_bind. exists s. split; [|done]. rewrite He. by left.
Qed.

(** In well-keyed stores a pair of keys is called for exactly when the proxy
    key is in the proxies store and the service key is in the services store
    and in the endpoints store. *)
Lemma desired_routes_keys (c : ExternalServicesController) (ks kp : string) :
  keyed (proxies c) → keyed (services c) →
  (ks, kp) ∈ desired_routes c ↔
  is_Some (proxies c !! kp) ∧ is_Some (services c !! ks) ∧ is_Some (endpoints c !! ks).
Proof.
  intros Hkp Hks. rewrite desired_routes_spec. split.
  - intros (s & p & [k1 Hp]%elem_of_List & [k2 Hs]%elem_of_List & He & [= -> ->]).
    apply exists_true in He.
    pose proof (Hkp _ _ Hp) as <-. pose proof (Hks _ _ Hs) as E.
    unfold cache.DeletionHandlingMetaNamespaceKeyFunc in *.
    subst k2. eauto.
  - intros ([p Hp] & [s Hs] & He).
    pose proof (Hkp _ _ Hp) as Ep. pose proof (Hks _ _ Hs) as Es.
    unfold cache.DeletionHandlingMetaNamespaceKeyFunc in *.
    exists s, p. split_and!.
    + apply elem_of_List. eauto.
    + apply elem_of_List. eauto.
    + apply exists_true. unfold cache.DeletionHandlingMetaNamespaceKeyFunc.
      by rewrite Es.
    + by rewrite Es, Ep.
Qed.

Section Convergence.
Variable fault : nat → option error.

Lemma model_issue (call : Call) (w : World routes_model.ExternalIPRoutesStore) :
  (@issue _ (routes_model.store fault) call w).2 = inr () →
  routes_model.route_set (store (@issue _ (routes_model.store fault) call w).1)
  = apply_call (routes_model.route_set (store w)) call.
Proof.
  unfold routes_model.route_set, routes_model.List.
  destruct call as [r|s p]; cbn; unfold Delete_, Add_; cbn;
    unfold routes_model.Delete, routes_model.Add;
    destruct (fault (routes_model.served (store w))) as [err|]; cbn; try done;
    intros _.
  - apply set_eq. intros k.
    rewrite elem_of_difference, !elem_of_list_to_set, !list_elem_of_fmap.
    rewrite elem_of_singleton. split.
    + intros (r' & -> & [Hne Hin]%list_elem_of_filter). split; [eauto|done].
    + intros ((r' & -> & Hin) & Hne). exists r'. split; [done|].
      by apply list_elem_of_filter.
  - unfold routes_model.has_route. case_bool_decide as Hin.
    + apply set_eq. intros k.
      rewrite elem_of_union, elem_of_singleton, elem_of_list_to_set.
      split; [by left|]. by intros [Hk| ->].
    + rewrite fmap_app, list_to_set_app_L. cbn. by rewrite union_empty_r_L.
Qed.

Lemma model_run (cs : list Call) (w : World routes_model.ExternalIPRoutesStore) :
  (for_range cs (@issue _ (routes_model.store fault)) w).2 = inr () →
  routes_model.route_set
    (store (for_range cs (@issue _ (routes_model.store fault)) w).1)
  = foldl apply_call (routes_model.route_set (store w)) cs.
Proof.
  revert w. induction cs as [|call cs IH]; intros w; [done|].
  cbn [for_range foldl]. unfold mbind, M_bind.
  pose proof (model_issue call w) as Hstep.
  destruct (issue call w) as [w1 [err|[]]]; cbn in *; [done|].
  intros Hres. rewrite <- Hstep by done. by apply IH.
Qed.

(** C1 (convergence of one run), on the route store of the spec. For every
    state of the three stores in which the cached proxies and services sit
    under their own keys, and every route list, a run of [reconcile] that
    returns no error leaves in the route store exactly the routes the caches
    call for: a pair (service, proxy) is in the route set if and only if the
    proxy is in the proxies store, the service is in the services store, and
    the endpoints store has an entry under the service's key. *)
Theorem reconcile_converges (c : ExternalServicesController)
    (st : routes_model.ExternalIPRoutesStore) :
  keyed (proxies c) → keyed (services c) →
  (@run_reconcile _ (routes_model.store fault) c st).2 = inr () →
  routes_model.route_set (store (@run_reconcile _ (routes_model.store fault) c st).1)
  = desired_routes c
  ∧ ∀ ks kp,
      (ks, kp) ∈ routes_model.route_set
                   (store (@run_reconcile _ (routes_model.store fault) c st).1)
      ↔ is_Some (proxies c !! kp) ∧ is_Some (services c !! ks)
        ∧ is_Some (endpoints c !! ks).
Proof.
  intros Hkp Hks Hres.
  assert (Hset : routes_model.route_set
                   (store (@run_reconcile _ (routes_model.store fault) c st).1)
                 = desired_routes c).
  { revert Hres. unfold run_reconcile. rewrite reconcile_plan. cbn [store].
    intros Hres. rewrite model_run by done. cbn [store].
    rewrite foldl_app, fold_adds by apply planned_adds_no_delete.
    rewrite fold_deletes by apply planned_deletes_no_add.
    rewrite planned_adds_keys, planned_routes.
    apply set_eq. intros [ks kp]. rewrite elem_of_union, elem_of_difference.
    split; [|by right]. intros [[Hin Hout]|Hd]; [|done].
    unfold routes_model.route_set in Hin.
    apply elem_of_list_to_set, list_elem_of_fmap in Hin as (r & Hk & Hr).
    apply desired_routes_keys; [done|done|].
    destruct (failed_checks c r) as [|n] eqn:Hn.
    - unfold failed_checks in Hn. unfold routes_model.route_key in Hk.
      injection Hk as -> ->.
      destruct (cache.exists_ (proxies c) _) eqn:E1; [|done].
      destruct (cache.exists_ (services c) _) eqn:E2; [|done].
      destruct (cache.exists_ (endpoints c) _) eqn:E3; [|done].
      by apply exists_true in E1, E2, E3.
    - exfalso. apply Hout. rewrite Hk.
      apply elem_of_list_to_set, list_elem_of_fmap. exists r. split; [done|].
      apply list_elem_of_bind. exists r. split; [|done].
      rewrite Hn. by left. }
  split; [done|]. intros ks kp. rewrite Hset. by apply desired_routes_keys.
Qed.

End Convergence.

(** ** The stores of a running controller are well keyed *)
Section Keyed.
Context `{Imports}.

Lemma handle_keyed (c : ExternalServicesController) (e : Event) :
  stores_keyed c → stores_keyed (handle c e).
Proof.
  intros (Hp & Hs & He).
  destruct e; cbn;
    unfold podUpdate, podAdd, podDelete, serviceUpdate, serviceAdd, serviceDelete,
      endpointsUpdate, endpointsAdd, endpointsDelete;
    repeat case_match; cbn;
    split_and!; first [done | by apply keyed_Add | by apply keyed_Delete].
Qed.

(** Whatever the informers deliver to a new controller, every cached object
    sits under its own key. *)
Lemma deliver_keyed (events : list Event) (ip : net.IP) :
  stores_keyed (deliver events (NewExternalServicesController ip)).
Proof.
  assert (Hgen : ∀ c, stores_keyed c → stores_keyed (deliver events c)).
  { induction events as [|e events IH]; intros c Hc; [done|].
    rewrite deliver_cons. by apply IH, handle_keyed. }
  apply Hgen. split_and!; apply keyed_empty.
Qed.

End Keyed.

(** ** Runs on the sample objects *)

(** C1 at a route store that holds a route for a service and a proxy that are
    both gone, and does not hold the route the caches call for. *)
Lemma reconcile_converges_sample :
  let w := (@run_reconcile _ (routes_model.store never) one_of_each
              (routes_of [route db proxy2])).1 in
  routes_model.route_set (store w) = desired_routes one_of_each
  ∧ ∀ ks kp,
      (ks, kp) ∈ routes_model.route_set (store w)
      ↔ is_Some (proxies one_of_each !! kp) ∧ is_Some (services one_of_each !! ks)
        ∧ is_Some (endpoints one_of_each !! ks).
Proof.
  destruct (@deliver_keyed kube_parrot
              [PodAdd proxy1; ServiceAdd web; EndpointsAdd web_endpoints] ip_node4)
    as (Hp & Hs & _).
  apply (reconcile_converges never one_of_each (routes_of [route db proxy2]) Hp Hs).
  vm_compute. reflexivity.
Defined.

Example converged_route_set :
  routes_model.route_set
    (store (@run_reconcile _ (routes_model.store never) one_of_each
              (routes_of [route db proxy2])).1)
  = {[("default/web", "kube-system/kube-proxy-x7k")]}.
Proof.
  vm_compute. reflexivity.
Qed.

(** C4 at a route list whose second route names a proxy that is not cached. *)
Lemma only_the_stale_route_is_deleted_sample :
  let log := calls (@run_reconcile _ (routes_model.store never) one_of_each
                      (routes_of [route web proxy1; route web proxy2])).1 in
  route web proxy2 ∈ deleted log ∧ ∀ r, r ∈ deleted log → r = route web proxy2.
Proof.
  apply (@only_the_stale_route_is_deleted _ (routes_model.store never) one_of_each
           (routes_of [route web proxy1; route web proxy2])
           [route web proxy1] [] (route web proxy2)).
  - reflexivity.
  - vm_compute. reflexivity.
  - constructor; [vm_compute; reflexivity|constructor].
Defined.

(** C5 at a route store whose first call fails: the one route of the list is
    stale, its [Delete] reports an error, and the run ends there. *)
Lemma delete_error_ends_the_run_sample :
  (@run_reconcile _ (routes_model.store first_call_fails)
     (NewExternalServicesController ip_node4) (routes_of [route web proxy1])).2
  = inl "session closed"
  ∧ @nil (Call * option error) = [].
Proof.
  apply (@delete_error_ends_the_run _ (routes_model.store first_call_fails)
           (NewExternalServicesController ip_node4) (routes_of [route web proxy1])
           [] [] (route web proxy1) "session closed").
  vm_compute. reflexivity.
Defined.

(** C9 at a route that fails all three checks: [Delete] is called on it three
    times. *)
Lemma delete_called_per_failed_check_sample :
  let log := calls (@run_reconcile _ (routes_model.store never) one_of_each
                      (routes_of [route web proxy1; route db proxy2])).1 in
  length (filter (λ r, r = route db proxy2) (deleted log))
  = failed_checks one_of_each (route db proxy2)
  ∧ (failed_checks one_of_each (route db proxy2) ≤ 3)%nat.
Proof.
  apply (@delete_called_per_failed_check _ (routes_model.store never) one_of_each
           (routes_of [route web proxy1; route db proxy2])
           [route web proxy1] [] (route db proxy2)).
  - reflexivity.
  - intros Hin. apply list_elem_of_singleton in Hin. discriminate Hin.
  - apply not_elem_of_nil.
  - intros r err Hin.
    assert (Hlog : (CallDelete r, Some err).2 = None).
    { revert Hin. generalize (CallDelete r, Some err).
      apply Forall_forall. vm_compute. repeat constructor. }
    discriminate Hlog.
Defined.

Example three_deletes_of_one_route :
  deleted (calls (@run_reconcile _ (routes_model.store never) one_of_each
                    (routes_of [route web proxy1; route db proxy2])).1)
  = [route db proxy2; route db proxy2; route db proxy2]
  ∧ failed_checks one_of_each (route db proxy2) = 3.
Proof. vm_compute. split; reflexivity. Qed.

(** The scenario of the spec: a proxy alone gives no route, a service alone
    gives none, the endpoints of the service give the route, and the route
    goes when the endpoints lose their last address. *)
Example end_to_end :
  let c0 := NewExternalServicesController ip_node4 in
  let c1 := @handle kube_parrot c0 (PodAdd proxy1) in
  let c2 := @handle kube_parrot c1 (ServiceAdd web) in
  let c3 := @handle kube_parrot c2 (EndpointsAdd web_endpoints) in
  let c4 := @handle kube_parrot c3 (EndpointsUpdate web_endpoints web_endpoints_empty) in
  routes_after c1 [] = []
  ∧ routes_after c2 (routes_after c1 []) = []
  ∧ routes_after c3 (routes_after c2 []) = [route web proxy1]
  ∧ routes_after c4 [route web proxy1] = []
  ∧ dirty c4 = 4.
Proof. vm_compute. repeat split. Qed.

(** * Further properties of the handlers *)

Section HandlerEffects.
Context `{Imports}.

(** [proxy_ready] is [proxy_candidate] and the pod's readiness. *)
Lemma proxy_ready_candidate (c : ExternalServicesController) (pod : v1.Pod) :
  proxy_ready c pod = proxy_candidate c pod && IsPodReady pod.
Proof. reflexivity. Qed.

(** [podAdd] on a pod that fails one of the first tests. *)
Lemma podAdd_not_candidate (pod : v1.Pod) (c : ExternalServicesController) :
  proxy_candidate c pod = false → podAdd pod c = c.
Proof.
  unfold proxy_candidate, podAdd. intros Hc.
  destruct (String.prefix _ _); cbn in *; [|done].
  destruct (String.eqb (v1.Namespace _) _); cbn in *; [|done].
  by rewrite Hc.
Qed.

(** [podAdd] on a pod that passes them. *)
Lemma podAdd_candidate (pod : v1.Pod) (c : ExternalServicesController) :
  proxy_candidate c pod = true →
  podAdd pod c =
    if IsPodReady pod then
      if cache.exists_ (proxies c) pod then c
      else Dirty (set_proxies (cache.Add pod) c)
    else
      if cache.exists_ (proxies c) pod
      then Dirty (set_proxies (cache.Delete pod) c)
      else c.
Proof.
  unfold proxy_candidate, podAdd. intros Hc.
  apply andb_prop in Hc as [Hc Hhost]. apply andb_prop in Hc as [Hprefix Hns].
  rewrite Hprefix, Hns, Hhost. cbn.
  by destruct (IsPodReady pod), (cache.exists_ (proxies c) pod).
Qed.

(** X1 (no silent change). Every handler either leaves the controller exactly
    as it was or calls [Dirty] once: no notification changes a store without
    raising the dirty signal, and none raises it twice. *)
Theorem handler_changes_raise_dirty (c : ExternalServicesController) (e : Event) :
  handle c e = c ∨ dirty (handle c e) = S (dirty c).
Proof.
  destruct e; cbn;
    unfold podUpdate, podAdd, podDelete, serviceUpdate, serviceAdd, serviceDelete,
      endpointsUpdate, endpointsAdd, endpointsDelete;
    repeat case_match; auto.
Qed.

(** X2 (no spurious signal, but for service deletes). A handler other than
    [serviceDelete] that calls [Dirty] has flipped the presence of the
    object's key in the store of its kind: an absent key is present
    afterwards, a present key absent. *)
Theorem dirty_means_membership_changed (c : ExternalServicesController) (e : Event) :
  is_service_delete e = false →
  dirty (handle c e) ≠ dirty c →
  present (handle c e) e = negb (present c e).
Proof.
  intros Hsd Hd.
  destruct e as [pod|old pod|pod|svc|old svc|svc|ep|old ep|ep]; try discriminate Hsd;
    cbn in *.
  - destruct (proxy_candidate c pod) eqn:Hc.
    + rewrite podAdd_candidate in * by done.
      destruct (IsPodReady pod), (cache.exists_ (proxies c) pod) eqn:E; cbn in *;
        try done; [apply exists_Add|apply exists_Delete].
    + by rewrite podAdd_not_candidate in Hd.
  - unfold podUpdate in *. destruct (proxy_candidate c pod) eqn:Hc.
    + rewrite podAdd_candidate in * by done.
      destruct (IsPodReady pod), (cache.exists_ (proxies c) pod) eqn:E; cbn in *;
        try done; [apply exists_Add|apply exists_Delete].
    + by rewrite podAdd_not_candidate in Hd.
  - unfold podDelete in *.
    destruct (cache.exists_ (proxies c) pod) eqn:E; cbn in *; [apply exists_Delete|done].
  - unfold serviceAdd in *. destruct (Nat.eqb _ 0); [done|].
    destruct (cache.exists_ (services c) svc) eqn:E; cbn in *; [done|apply exists_Add].
  - unfold serviceUpdate, serviceAdd in *. destruct (Nat.eqb _ 0); [done|].
    destruct (cache.exists_ (services c) svc) eqn:E; cbn in *; [done|apply exists_Add].
  - unfold endpointsAdd in *.
    destruct (subsets_ready _), (cache.exists_ (endpoints c) ep) eqn:E; cbn in *;
      try done; [apply exists_Add|apply exists_Delete].
  - unfold endpointsUpdate, endpointsAdd in *.
    destruct (subsets_ready _), (cache.exists_ (endpoints c) ep) eqn:E; cbn in *;
      try done; [apply exists_Add|apply exists_Delete].
  - unfold endpointsDelete in *.
    destruct (cache.exists_ (endpoints c) ep) eqn:E; cbn in *; [apply exists_Delete|done].
Qed.

(** X3 (a notification touches one entry). A handler leaves the node address
    and the stores of the other two kinds as they are, and in the store of
    its own kind it leaves every entry under another key than the object's. *)
Theorem handler_touches_one_entry (c : ExternalServicesController) (e : Event) :
  hostIP (handle c e) = hostIP c
  ∧ match e with
    | PodAdd _ | PodUpdate _ _ | PodDelete _ =>
        services (handle c e) = services c ∧ endpoints (handle c e) = endpoints c
    | ServiceAdd _ | ServiceUpdate _ _ | ServiceDelete _ =>
        proxies (handle c e) = proxies c ∧ endpoints (handle c e) = endpoints c
    | EndpointsAdd _ | EndpointsUpdate _ _ | EndpointsDelete _ =>
        proxies (handle c e) = proxies c ∧ services (handle c e) = services c
    end
  ∧ ∀ k, k ≠ event_key e →
      proxies (handle c e) !! k = proxies c !! k
      ∧ services (handle c e) !! k = services c !! k
      ∧ endpoints (handle c e) !! k = endpoints c !! k.
Proof.
  split; [apply handle_hostIP|]. split.
  - destruct e; cbn;
      unfold podUpdate, podAdd, podDelete, serviceUpdate, serviceAdd, serviceDelete,
        endpointsUpdate, endpointsAdd, endpointsDelete;
      repeat case_match; done.
  - intros k Hk.
    destruct e; cbn in *;
      unfold podUpdate, podAdd, podDelete, serviceUpdate, serviceAdd, serviceDelete,
        endpointsUpdate, endpointsAdd, endpointsDelete;
      repeat case_match; cbn; unfold cache.Add, cache.Delete;
      rewrite ?lookup_insert_ne, ?lookup_delete_ne by done; done.
Qed.

End HandlerEffects.

Section HandlerStates.
Context `{Imports}.

(** X4 (the cached copy is kept). For each of the three kinds: when the key of
    an object that passes the filter already has an entry, the add handler
    changes nothing. The store keeps the copy it has, also when the new
    object differs from it, and [Dirty] is not called. *)
Theorem cached_copy_is_kept :
  (∀ c pod, proxy_ready c pod = true → cache.exists_ (proxies c) pod = true →
     podAdd pod c = c)
  ∧ (∀ c service, service_eligible service = true →
     cache.exists_ (services c) service = true → serviceAdd service c = c)
  ∧ (∀ c endpoints_, endpoints_ready endpoints_ = true →
     cache.exists_ (endpoints c) endpoints_ = true → endpointsAdd endpoints_ c = c).
Proof.
  split_and!.
  - intros c pod Hr He. by rewrite podAdd_ready, He.
  - intros c service Hr He. by rewrite serviceAdd_eligible, He.
  - intros c e Hr He. by rewrite endpointsAdd_ready, He.
Qed.

(** X5 (presence follows the filter). After [endpointsAdd] the object's key is
    in the endpoints store exactly when the object has a subset with an
    address. After [podAdd] on a pod with the proxy name, namespace and host
    address, the key is in the proxies store exactly when the pod is ready;
    any other pod leaves the controller unchanged. After [serviceAdd] the key
    is in the services store when the service has an external IP or the key
    was there before. *)
Theorem presence_follows_filter :
  (∀ c endpoints_,
     cache.exists_ (endpoints (endpointsAdd endpoints_ c)) endpoints_
     = endpoints_ready endpoints_)
  ∧ (∀ c pod, proxy_candidate c pod = true →
     cache.exists_ (proxies (podAdd pod c)) pod = IsPodReady pod)
  ∧ (∀ c pod, proxy_candidate c pod = false → podAdd pod c = c)
  ∧ (∀ c service,
     cache.exists_ (services (serviceAdd service c)) service
     = service_eligible service || cache.exists_ (services c) service).
Proof.
  split_and!.
  - intros c e. unfold endpointsAdd, endpoints_ready.
    destruct (subsets_ready _), (cache.exists_ (endpoints c) e) eqn:E; cbn;
      first [done | apply exists_Add | apply exists_Delete].
  - intros c pod Hc. rewrite podAdd_candidate by done.
    destruct (IsPodReady pod), (cache.exists_ (proxies c) pod) eqn:E; cbn;
      first [done | apply exists_Add | apply exists_Delete].
  - intros c pod Hc. by apply podAdd_not_candidate.
  - intros c service. unfold serviceAdd, service_eligible.
    destruct (Nat.eqb _ 0); cbn; [done|].
    destruct (cache.exists_ (services c) service) eqn:E; cbn; [done|apply exists_Add].
Qed.

(** X6 (delete handlers). After a delete handler the object's key has no
    entry in the store of its kind, whatever the store held; [podDelete] and
    [endpointsDelete] of an object whose key has no entry leave the controller
    unchanged. *)
Theorem deleted_object_is_gone :
  (∀ c pod, cache.exists_ (proxies (podDelete pod c)) pod = false)
  ∧ (∀ c service, cache.exists_ (services (serviceDelete service c)) service = false)
  ∧ (∀ c endpoints_,
       cache.exists_ (endpoints (endpointsDelete endpoints_ c)) endpoints_ = false)
  ∧ (∀ c pod, cache.exists_ (proxies c) pod = false → podDelete pod c = c)
  ∧ (∀ c endpoints_, cache.exists_ (endpoints c) endpoints_ = false →
       endpointsDelete endpoints_ c = c).
Proof.
  split_and!.
  - intros c pod. unfold podDelete.
    destruct (cache.exists_ (proxies c) pod) eqn:E; [apply exists_Delete|done].
  - intros c service. apply exists_Delete.
  - intros c e. unfold endpointsDelete.
    destruct (cache.exists_ (endpoints c) e) eqn:E; [apply exists_Delete|done].
  - intros c pod He. unfold podDelete. by rewrite He.
  - intros c e He. unfold endpointsDelete. by rewrite He.
Qed.

Lemma Delete_Add_absent {T} `{Object T} (obj : T) (items : gmap string T) :
  cache.exists_ items obj = false → cache.Delete obj (cache.Add obj items) = items.
Proof.
  intros He%exists_false. unfold cache.Delete, cache.Add.
  by rewrite delete_insert_eq, delete_id.
Qed.

(** X7 (add then delete). For each kind: when an object that passes the
    filter arrives while its key has no entry, and its delete notification
    follows, the three stores are back as they were; [Dirty] has been called
    twice. *)
Theorem add_then_delete_restores :
  (∀ c pod, proxy_ready c pod = true → cache.exists_ (proxies c) pod = false →
     podDelete pod (podAdd pod c) = Dirty (Dirty c))
  ∧ (∀ c service, service_eligible service = true →
     cache.exists_ (services c) service = false →
     serviceDelete service (serviceAdd service c) = Dirty (Dirty c))
  ∧ (∀ c endpoints_, endpoints_ready endpoints_ = true →
     cache.exists_ (endpoints c) endpoints_ = false →
     endpointsDelete endpoints_ (endpointsAdd endpoints_ c) = Dirty (Dirty c)).
Proof.
  split_and!.
  - intros c pod Hr He. rewrite podAdd_ready, He by done.
    unfold podDelete. cbn [proxies Dirty set_proxies]. rewrite exists_Add.
    unfold Dirty, set_proxies. cbn. by rewrite Delete_Add_absent.
  - intros c service Hr He. rewrite serviceAdd_eligible, He by done.
    unfold serviceDelete, Dirty, set_services. cbn. by rewrite Delete_Add_absent.
  - intros c e Hr He. rewrite endpointsAdd_ready, He by done.
    unfold endpointsDelete. cbn [endpoints Dirty set_endpoints]. rewrite exists_Add.
    unfold Dirty, set_endpoints. cbn. by rewrite Delete_Add_absent.
Qed.

Lemma handle_filtered (c : ExternalServicesController) (e : Event) :
  proxies_filtered c ∧ services_eligible c →
  proxies_filtered (handle c e) ∧ services_eligible (handle c e).
Proof.
  intros [Hp Hs].
  assert (Hdel : ∀ (obj : v1.Pod), proxies_filtered (Dirty (set_proxies (cache.Delete obj) c))).
  { intros obj k p. cbn. unfold cache.Delete. rewrite lookup_delete.
    case_decide; [done|apply Hp]. }
  assert (HpodAdd : ∀ pod, proxies_filtered (podAdd pod c) ∧ services_eligible (podAdd pod c)).
  { intros pod. destruct (proxy_candidate c pod) eqn:Hc.
    - rewrite podAdd_candidate by done.
      destruct (IsPodReady pod) eqn:Hr, (cache.exists_ (proxies c) pod); try done.
      split; [|done]. intros k p. cbn. unfold cache.Add. rewrite lookup_insert.
      case_decide; [|apply Hp]. intros [= <-].
      transitivity (proxy_candidate c pod && IsPodReady pod); [reflexivity|].
      by rewrite Hc, Hr.
    - by rewrite podAdd_not_candidate. }
  assert (HsvcAdd : ∀ svc, proxies_filtered (serviceAdd svc c) ∧ services_eligible (serviceAdd svc c)).
  { intros svc. unfold serviceAdd.
    destruct (Nat.eqb _ 0) eqn:E0; [done|].
    destruct (cache.exists_ (services c) svc); cbn; [done|].
    split; [done|]. intros k s. cbn. unfold cache.Add. rewrite lookup_insert.
    case_decide; [|apply Hs]. intros [= <-]. unfold service_eligible. by rewrite E0. }
  destruct e; cbn; try apply HpodAdd; try apply HsvcAdd.
  - unfold podDelete. destruct (cache.exists_ (proxies c) obj); [|done].
    split; [apply Hdel|done].
  - unfold serviceDelete. split; [done|].
    intros k s. cbn. unfold cache.Delete. rewrite lookup_delete.
    case_decide; [done|apply Hs].
  - unfold endpointsAdd. repeat case_match; done.
  - unfold endpointsUpdate, endpointsAdd. repeat case_match; done.
  - unfold endpointsDelete. repeat case_match; done.
Qed.

Lemma deliver_filtered (events : list Event) (c : ExternalServicesController) :
  proxies_filtered c ∧ services_eligible c →
  proxies_filtered (deliver events c) ∧ services_eligible (deliver events c).
Proof.
  revert c. induction events as [|e events IH]; intros c Hc; [done|].
  rewrite deliver_cons. by apply IH, handle_filtered.
Qed.

Lemma new_filtered (ip : net.IP) :
  proxies_filtered (NewExternalServicesController ip)
  ∧ services_eligible (NewExternalServicesController ip).
Proof.
  split; intros k o Hl; cbn in Hl; unfold cache.NewStore in Hl;
    by rewrite lookup_empty in Hl.
Qed.

(** X8 (cached proxies passed the filter). Starting from a new controller,
    after any sequence of notifications every pod in the proxies store has the
    proxy name prefix, is in the proxy namespace, and was ready when it was
    cached. *)
Theorem cached_proxy_passed_filter (ip : net.IP) (events : list Event)
    (k : string) (pod : v1.Pod) :
  proxies (deliver events (NewExternalServicesController ip)) !! k = Some pod →
  String.prefix KubeProxyPrefix (v1.Name (v1.pod_ObjectMeta pod)) = true
  ∧ v1.Namespace (v1.pod_ObjectMeta pod) = KubeProxyNamespace
  ∧ IsPodReady pod = true.
Proof.
  intros Hk.
  destruct (deliver_filtered events _ (new_filtered ip)) as [Hp _].
  specialize (Hp k pod Hk). unfold proxy_ready in Hp.
  apply andb_prop in Hp as [Hp Hr]. apply andb_prop in Hp as [Hp _].
  apply andb_prop in Hp as [Hprefix Hns]. by apply String.eqb_eq in Hns.
Qed.

(** X9 (cached services have an external IP). Starting from a new controller,
    after any sequence of notifications every service object in the services
    store has a non-empty list of external IPs. *)
Theorem cached_service_has_external_ip (ip : net.IP) (events : list Event)
    (k : string) (service : v1.Service) :
  services (deliver events (NewExternalServicesController ip)) !! k = Some service →
  v1.ExternalIPs (v1.service_Spec service) ≠ [].
Proof.
  intros Hk.
  destruct (deliver_filtered events _ (new_filtered ip)) as [_ Hs].
  specialize (Hs k service Hk). unfold service_eligible in Hs.
  intros Hnil. by rewrite Hnil in Hs.
Qed.

Lemma keyed_List_NoDup {T} `{Object T} (items : gmap string T) :
  keyed items → NoDup (cache.MetaNamespaceKeyFunc <$> cache.List items).
Proof.
  intros Hk. unfold cache.List.
  replace (cache.MetaNamespaceKeyFunc <$> (map_to_list items).*2)
    with ((map_to_list items).*1); [apply NoDup_fst_map_to_list|].
  rewrite <- list_fmap_compose. apply list_fmap_ext.
  intros i [k v] Hin. cbn. symmetry. apply (Hk k v).
  apply elem_of_map_to_list. by apply list_elem_of_lookup_2 in Hin.
Qed.

(** X10 (one object per key). Starting from a new controller, after any
    sequence of notifications the objects [List] gives for each store have
    pairwise different keys: [reconcile] never meets two proxies, or two
    services, of the same namespace and name. *)
Theorem listed_keys_are_distinct (ip : net.IP) (events : list Event) :
  let c := deliver events (NewExternalServicesController ip) in
  NoDup (cache.MetaNamespaceKeyFunc <$> cache.List (proxies c))
  ∧ NoDup (cache.MetaNamespaceKeyFunc <$> cache.List (services c))
  ∧ NoDup (cache.MetaNamespaceKeyFunc <$> cache.List (endpoints c)).
Proof.
  intros c. destruct (deliver_keyed events ip) as (Hp & Hs & He).
  split_and!; by apply keyed_List_NoDup.
Qed.

Lemma handle_dirty_step (c : ExternalServicesController) (e : Event) :
  (dirty c ≤ dirty (handle c e) ≤ S (dirty c))%nat.
Proof.
  destruct e; cbn;
    unfold podUpdate, podAdd, podDelete, serviceUpdate, serviceAdd, serviceDelete,
      endpointsUpdate, endpointsAdd, endpointsDelete;
    repeat case_match; cbn; lia.
Qed.

(** X11 (dirty signals of a burst). Over any sequence of notifications the
    count of [Dirty] calls never goes down and rises by at most one per
    notification. *)
Theorem dirty_calls_bounded (events : list Event) (c : ExternalServicesController) :
  (dirty c ≤ dirty (deliver events c) ≤ dirty c + length events)%nat.
Proof.
  revert c. induction events as [|e events IH]; intros c; [cbn; lia|].
  rewrite deliver_cons. specialize (IH (handle c e)).
  pose proof (handle_dirty_step c e). cbn [length]. lia.
Qed.

End HandlerStates.

(** * Further properties of [reconcile] *)

Lemma failed_checks_invalid (c : ExternalServicesController) (r : bgp.ExternalIPRoute) :
  failed_checks c r ≠ 0 ↔ valid c r = false.
Proof.
  unfold failed_checks, valid.
  destruct (cache.exists_ (proxies c) _), (cache.exists_ (services c) _),
    (cache.exists_ (endpoints c) _); cbn; split; intros; done || lia.
Qed.

Lemma elem_of_planned_deletes (c : ExternalServicesController)
    (l : list bgp.ExternalIPRoute) (r : bgp.ExternalIPRoute) :
  r ∈ omap delete_of (planned_deletes c l) ↔ r ∈ l ∧ valid c r = false.
Proof.
  rewrite planned_routes, list_elem_of_bind. split.
  - intros (r' & [-> Hn]%elem_of_replicate & Hin). by rewrite <- failed_checks_invalid.
  - intros [Hin Hv]. exists r. split; [|done].
    apply elem_of_replicate. by rewrite failed_checks_invalid.
Qed.

Lemma elem_of_planned_adds (c : ExternalServicesController) (call : Call) :
  call ∈ planned_adds c ↔
  ∃ s p, call = CallAdd s p ∧ p ∈ cache.List (proxies c)
         ∧ s ∈ cache.List (services c) ∧ cache.exists_ (endpoints c) s = true.
Proof.
  unfold planned_adds. rewrite list_elem_of_bind. split.
  - intros (p & (s & Hc & Hs)%list_elem_of_bind & Hp).
    destruct (cache.exists_ (endpoints c) s) eqn:E; [|by apply elem_of_nil in Hc].
    apply list_elem_of_singleton in Hc. by exists s, p.
  - intros (s & p & -> & Hp & Hs & He). exists p. split; [|done].
    apply list_elem_of_bind. exists s. split; [|done]. rewrite He. by left.
Qed.

Lemma prefix_app_split {A} (l d a : list A) :
  l `prefix_of` d ++ a →
  ∃ l1 l2, l = l1 ++ l2 ∧ l1 `prefix_of` d ∧ l2 `prefix_of` a.
Proof.
  revert l. induction d as [|x d IH]; intros l Hl.
  - exists [], l. split_and!; [done|apply prefix_nil|done].
  - destruct l as [|y l].
    + exists [], []. split_and!; [done|apply prefix_nil|apply prefix_nil].
    + cbn in Hl. pose proof (prefix_cons_inv_1 _ _ _ _ Hl) as ->.
      apply prefix_cons_inv_2 in Hl.
      destruct (IH l Hl) as (l1 & l2 & -> & H1 & H2).
      exists (x :: l1), l2. split_and!; [done|by apply prefix_cons|done].
Qed.

Section RunLog.
Context {RS : Type} `{RouteStore RS}.

(** The log of a run against the plan: an initial part of it, all of it
    and free of errors when the run returns nil, and ending in the error the
    run returns otherwise. *)
Lemma run_reconcile_log (c : ExternalServicesController) (s : RS) :
  (calls (run_reconcile c s).1).*1
    `prefix_of` planned_deletes c (routes_List s) ++ planned_adds c
  ∧ (((run_reconcile c s).2 = inr ()
      ∧ (calls (run_reconcile c s).1).*1
        = planned_deletes c (routes_List s) ++ planned_adds c
      ∧ succeeded (calls (run_reconcile c s).1))
     ∨ (∃ pre call err,
          (run_reconcile c s).2 = inl err
          ∧ calls (run_reconcile c s).1 = pre ++ [(call, Some err)]
          ∧ succeeded pre)).
Proof.
  unfold run_reconcile. rewrite reconcile_plan. cbn [store].
  destruct (for_range_issue_log
              (planned_deletes c (routes_List s) ++ planned_adds c)
              {| store := s; calls := [] |}) as (new & -> & Hpre & _ & Hcases).
  cbn [calls app]. by split.
Qed.

Lemma run_nil_deleted (c : ExternalServicesController) (s : RS) :
  (run_reconcile c s).2 = inr () →
  deleted (calls (run_reconcile c s).1)
  = omap delete_of (planned_deletes c (routes_List s)).
Proof.
  intros Hres. destruct (run_reconcile_log c s) as [_ [(_ & Hall & _)|(? & ? & ? & He & _)]].
  - by rewrite deleted_calls, Hall, omap_app, planned_adds_no_delete, app_nil_r.
  - rewrite Hres in He. discriminate He.
Qed.

(** A successful run calls [Delete] on every listed route that fails a
    check. *)
Lemma run_nil_deletes_invalid (c : ExternalServicesController) (s : RS)
    (r : bgp.ExternalIPRoute) :
  (run_reconcile c s).2 = inr () → r ∈ routes_List s → valid c r = false →
  r ∈ deleted (calls (run_reconcile c s).1).
Proof.
  intros Hres Hin Hv. rewrite run_nil_deleted by done.
  by apply elem_of_planned_deletes.
Qed.

(** X12 (abort on an [Add] failure). When an [Add] call of a run reports an
    error, the run returns that error and the failed call is the last call of
    the run. *)
Theorem add_error_ends_the_run (c : ExternalServicesController) (s : RS)
    (pre post : list (Call * option error)) (service : v1.Service) (proxy : v1.Pod)
    (err : error) :
  calls (run_reconcile c s).1 = pre ++ (CallAdd service proxy, Some err) :: post →
  (run_reconcile c s).2 = inl err ∧ post = [].
Proof.
  intros Hlog.
  destruct (run_reconcile_log c s)
    as [_ [(_ & _ & Hok)|(pre' & call' & err' & Hres & Hlog' & Hok)]].
  - exfalso. rewrite Hlog in Hok. apply Forall_app in Hok as [_ Hok].
    apply Forall_cons in Hok as [Hok _]. done.
  - rewrite Hlog in Hlog'.
    destruct (failed_call_is_last _ _ _ _ _ _ _ Hlog' Hok) as (-> & _ & ->). done.
Qed.

(** X13 (the result and the log). A run returns nil exactly when no call it
    issued reported an error; and when it returns an error, that error is the
    one the last call of the log reported. *)
Theorem nil_iff_no_call_failed (c : ExternalServicesController) (s : RS) :
  ((run_reconcile c s).2 = inr () ↔ succeeded (calls (run_reconcile c s).1))
  ∧ ∀ err, (run_reconcile c s).2 = inl err →
      ∃ pre call, calls (run_reconcile c s).1 = pre ++ [(call, Some err)].
Proof.
  destruct (run_reconcile_log c s)
    as [_ [(Hres & _ & Hok)|(pre & call & err & Hres & Hlog & Hok)]].
  - split; [done|]. intros err He. rewrite Hres in He. discriminate He.
  - split.
    + split; [intros He; rewrite Hres in He; discriminate He|].
      intros Hall. rewrite Hlog in Hall. apply Forall_app in Hall as [_ Hall].
      apply Forall_cons in Hall as [Hall _]. done.
    + intros err' He. rewrite Hres in He. injection He as <-. eauto.
Qed.

(** X14 (what is deleted). [Delete] is only called on routes of the list
    [reconcile] read that fail one of the three checks: a route that passes
    them is never deleted, and a successful run deletes every listed route
    that fails one. *)
Theorem deletes_are_the_invalid_routes (c : ExternalServicesController) (s : RS) :
  (∀ r, r ∈ deleted (calls (run_reconcile c s).1) →
        r ∈ routes_List s ∧ valid c r = false)
  ∧ ((run_reconcile c s).2 = inr () →
     ∀ r, r ∈ routes_List s → valid c r = false →
          r ∈ deleted (calls (run_reconcile c s).1)).
Proof.
  split.
  - intros r Hr. destruct (deleted_prefix c s) as [k Hk].
    apply elem_of_planned_deletes. rewrite Hk. apply elem_of_app. by left.
  - intros Hres r Hin Hv. by apply run_nil_deletes_invalid.
Qed.

(** X15 (what is added). [Add] is only called for a proxy of the proxies
    store and a service of the services store whose key has an entry in the
    endpoints store; a successful run calls it for every such pair, whether or
    not the route list already held the route. *)
Theorem adds_are_the_cached_pairs (c : ExternalServicesController) (s : RS) :
  (∀ service proxy e, (CallAdd service proxy, e) ∈ calls (run_reconcile c s).1 →
     proxy ∈ cache.List (proxies c) ∧ service ∈ cache.List (services c)
     ∧ cache.exists_ (endpoints c) service = true)
  ∧ ((run_reconcile c s).2 = inr () →
     ∀ service proxy, proxy ∈ cache.List (proxies c) →
       service ∈ cache.List (services c) →
       cache.exists_ (endpoints c) service = true →
       (CallAdd service proxy, None) ∈ calls (run_reconcile c s).1).
Proof.
  destruct (run_reconcile_log c s) as [Hpre Hcases]. split.
  - intros service proxy e Hin.
    apply (list_elem_of_fmap_2 fst) in Hin. cbn in Hin.
    destruct Hpre as [k Hk].
    assert (Hplan : CallAdd service proxy
                    ∈ planned_deletes c (routes_List s) ++ planned_adds c).
    { rewrite Hk. apply elem_of_app. by left. }
    apply elem_of_app in Hplan as [Hd|Ha].
    + by apply planned_deletes_are_deletes in Hd as (r & Hr & _).
    + apply elem_of_planned_adds in Ha as (s' & p' & [= -> ->] & Hp & Hs & He). done.
  - intros Hres service proxy Hp Hs He.
    destruct Hcases as [(_ & Hall & Hok)|(? & ? & ? & Hr & _)];
      [|rewrite Hres in Hr; discriminate Hr].
    assert (Hin : CallAdd service proxy ∈ (calls (run_reconcile c s).1).*1).
    { rewrite Hall. apply elem_of_app. right. apply elem_of_planned_adds.
      by exists service, proxy. }
    apply list_elem_of_fmap in Hin as ([call e] & Hc & Hin). cbn in Hc. subst call.
    unfold succeeded in Hok. rewrite Forall_forall in Hok.
    specialize (Hok _ Hin). cbn in Hok. by subst e.
Qed.

(** X16 (prune before converge). The log of a run is a sequence of [Delete]
    calls followed by a sequence of [Add] calls: no route is deleted after the
    first [Add]. *)
Theorem deletes_precede_adds (c : ExternalServicesController) (s : RS) :
  ∃ dels adds,
    calls (run_reconcile c s).1 = dels ++ adds
    ∧ Forall (λ ce, is_delete ce.1 = true) dels
    ∧ Forall (λ ce, is_delete ce.1 = false) adds.
Proof.
  destruct (run_reconcile_log c s) as [Hpre _].
  apply prefix_app_split in Hpre as (l1 & l2 & Hsplit & [k1 H1] & [k2 H2]).
  apply fmap_app_inv in Hsplit as (dels & adds & -> & -> & ->).
  exists dels, adds. split_and!; [done| |].
  - apply Forall_forall. intros [call e] Hin.
    apply (list_elem_of_fmap_2 fst) in Hin. cbn in Hin.
    assert (Hd : call ∈ planned_deletes c (routes_List s)).
    { rewrite H1. apply elem_of_app. by left. }
    by apply planned_deletes_are_deletes in Hd as (r & -> & _).
  - apply Forall_forall. intros [call e] Hin.
    apply (list_elem_of_fmap_2 fst) in Hin. cbn in Hin.
    assert (Ha : call ∈ planned_adds c).
    { rewrite H2. apply elem_of_app. by left. }
    by apply elem_of_planned_adds in Ha as (s' & p' & -> & _).
Qed.

(** X17 (no proxy, no route). When the proxies store is empty, as in a new
    controller, a run issues no [Add], and a successful run calls [Delete] on
    every route of the list. *)
Theorem empty_proxies_prune_all (c : ExternalServicesController) (s : RS) :
  proxies c = ∅ →
  (∀ service proxy e, (CallAdd service proxy, e) ∉ calls (run_reconcile c s).1)
  ∧ ((run_reconcile c s).2 = inr () →
     ∀ r, r ∈ routes_List s → r ∈ deleted (calls (run_reconcile c s).1)).
Proof.
  intros Hempty. split.
  - intros service proxy e Hin.
    apply (list_elem_of_fmap_2 fst) in Hin. cbn in Hin.
    destruct (run_reconcile_log c s) as [[k Hk] _].
    assert (Hplan : CallAdd service proxy
                    ∈ planned_deletes c (routes_List s) ++ planned_adds c).
    { rewrite Hk. apply elem_of_app. by left. }
    apply elem_of_app in Hplan as [Hd|Ha].
    + by apply planned_deletes_are_deletes in Hd as (r & Hr & _).
    + apply elem_of_planned_adds in Ha as (_ & p' & _ & Hp & _).
      apply elem_of_List in Hp as [k' Hp]. rewrite Hempty in Hp.
      by rewrite lookup_empty in Hp.
  - intros Hres r Hin. apply run_nil_deletes_invalid; [done|done|].
    unfold valid.
    replace (cache.exists_ (proxies c) (bgp.Proxy r)) with false; [done|].
    symmetry. apply exists_false. rewrite Hempty. apply lookup_empty.
Qed.

End RunLog.

(** * From a notification to the next run *)

Lemma exists_same_key {T U V} `{Object U} `{Object V} (items : gmap string T)
    (a : U) (b : V) :
  cache.MetaNamespaceKeyFunc a = cache.MetaNamespaceKeyFunc b →
  cache.exists_ items a = cache.exists_ items b.
Proof.
  intros Hk. unfold cache.exists_, cache.Get, cache.DeletionHandlingMetaNamespaceKeyFunc.
  by rewrite Hk.
Qed.

Section Eviction.
Context `{Imports} {RS : Type} `{RouteStore RS}.

(** X18 (an eviction reaches the routes). After a delete notification for a
    proxy, a service or an endpoints object, after an endpoints notification
    without any address, and after a notification for an unready pod with the
    proxy name, namespace and host address, the next run of [reconcile] that
    returns nil has called [Delete] on every listed route whose proxy, or
    whose service, has the key of that object. *)
Theorem eviction_reaches_the_routes (s : RS) (r : bgp.ExternalIPRoute) :
  r ∈ routes_List s →
  (∀ c pod,
     cache.MetaNamespaceKeyFunc (bgp.Proxy r) = cache.MetaNamespaceKeyFunc pod →
     (run_reconcile (podDelete pod c) s).2 = inr () →
     r ∈ deleted (calls (run_reconcile (podDelete pod c) s).1))
  ∧ (∀ c service,
     cache.MetaNamespaceKeyFunc (bgp.Service r) = cache.MetaNamespaceKeyFunc service →
     (run_reconcile (serviceDelete service c) s).2 = inr () →
     r ∈ deleted (calls (run_reconcile (serviceDelete service c) s).1))
  ∧ (∀ c endpoints_,
     cache.MetaNamespaceKeyFunc (bgp.Service r) = cache.MetaNamespaceKeyFunc endpoints_ →
     (run_reconcile (endpointsDelete endpoints_ c) s).2 = inr () →
     r ∈ deleted (calls (run_reconcile (endpointsDelete endpoints_ c) s).1))
  ∧ (∀ c endpoints_,
     cache.MetaNamespaceKeyFunc (bgp.Service r) = cache.MetaNamespaceKeyFunc endpoints_ →
     endpoints_ready endpoints_ = false →
     (run_reconcile (endpointsAdd endpoints_ c) s).2 = inr () →
     r ∈ deleted (calls (run_reconcile (endpointsAdd endpoints_ c) s).1))
  ∧ (∀ c pod,
     cache.MetaNamespaceKeyFunc (bgp.Proxy r) = cache.MetaNamespaceKeyFunc pod →
     proxy_candidate c pod = true → IsPodReady pod = false →
     (run_reconcile (podAdd pod c) s).2 = inr () →
     r ∈ deleted (calls (run_reconcile (podAdd pod c) s).1)).
Proof.
  intros Hin. split_and!.
  - intros c pod Hk Hres. apply run_nil_deletes_invalid; [done|done|].
    unfold valid. rewrite (exists_same_key _ (bgp.Proxy r) pod Hk).
    replace (cache.exists_ (proxies (podDelete pod c)) pod) with false; [done|].
    unfold podDelete.
    destruct (cache.exists_ (proxies c) pod) eqn:E; [|done].
    symmetry. apply exists_Delete.
  - intros c service Hk Hres. apply run_nil_deletes_invalid; [done|done|].
    unfold valid. rewrite (exists_same_key (services _) (bgp.Service r) service Hk).
    replace (cache.exists_ (services (serviceDelete service c)) service) with false.
    + by rewrite andb_false_r.
    + symmetry. apply exists_Delete.
  - intros c e Hk Hres. apply run_nil_deletes_invalid; [done|done|].
    unfold valid. rewrite (exists_same_key (endpoints _) (bgp.Service r) e Hk).
    replace (cache.exists_ (endpoints (endpointsDelete e c)) e) with false.
    + by rewrite andb_false_r.
    + unfold endpointsDelete.
      destruct (cache.exists_ (endpoints c) e) eqn:E; [|done].
      symmetry. apply exists_Delete.
  - intros c e Hk Hr Hres. apply run_nil_deletes_invalid; [done|done|].
    unfold valid. rewrite (exists_same_key (endpoints _) (bgp.Service r) e Hk).
    replace (cache.exists_ (endpoints (endpointsAdd e c)) e) with false.
    + by rewrite andb_false_r.
    + unfold endpointsAdd, endpoints_ready in *. rewrite Hr.
      destruct (cache.exists_ (endpoints c) e) eqn:E; [|done].
      symmetry. apply exists_Delete.
  - intros c pod Hk Hc Hr Hres. apply run_nil_deletes_invalid; [done|done|].
    unfold valid. rewrite (exists_same_key _ (bgp.Proxy r) pod Hk).
    replace (cache.exists_ (proxies (podAdd pod c)) pod) with false; [done|].
    rewrite podAdd_candidate, Hr by done.
    destruct (cache.exists_ (proxies c) pod) eqn:E; [|done].
    symmetry. apply exists_Delete.
Qed.

End Eviction.

(** ** The further properties on the sample objects *)

(** X2 at the first notification for [proxy1]. *)
Lemma dirty_means_membership_changed_sample :
  let c := NewExternalServicesController ip_node4 in
  present (@handle kube_parrot c (PodAdd proxy1)) (PodAdd proxy1)
  = negb (present c (PodAdd proxy1)).
Proof.
  intros c.
  apply (@dirty_means_membership_changed kube_parrot c (PodAdd proxy1)).
  - reflexivity.
  - vm_compute. discriminate.
Defined.

(** X4 at the service [web], cached with one external IP and delivered again
    with another: the cached copy is the old one. *)
Lemma cached_copy_is_kept_sample :
  serviceAdd web_moved one_of_each = one_of_each
  ∧ cache.Get (services one_of_each) web_moved = Some web.
Proof.
  split.
  - apply (proj1 (proj2 (@cached_copy_is_kept kube_parrot)) one_of_each web_moved);
      vm_compute; reflexivity.
  - vm_compute. reflexivity.
Defined.

(** X7 at the service [web] arriving at a new controller. *)
Lemma add_then_delete_restores_sample :
  let c := NewExternalServicesController ip_node4 in
  serviceDelete web (serviceAdd web c) = Dirty (Dirty c).
Proof.
  intros c.
  apply (proj1 (proj2 (@add_then_delete_restores kube_parrot)) c web);
    vm_compute; reflexivity.
Defined.

(** X8 at the proxy of [one_of_each]. *)
Lemma cached_proxy_passed_filter_sample :
  String.prefix "kube-proxy" (v1.Name (v1.pod_ObjectMeta proxy1)) = true
  ∧ v1.Namespace (v1.pod_ObjectMeta proxy1) = "kube-system"
  ∧ @IsPodReady kube_parrot proxy1 = true.
Proof.
  apply (@cached_proxy_passed_filter kube_parrot ip_node4
           [PodAdd proxy1; ServiceAdd web; EndpointsAdd web_endpoints]
           "kube-system/kube-proxy-x7k" proxy1).
  vm_compute. reflexivity.
Defined.

(** X9 at the service of [one_of_each]. *)
Lemma cached_service_has_external_ip_sample :
  v1.ExternalIPs (v1.service_Spec web) ≠ [].
Proof.
  apply (@cached_service_has_external_ip kube_parrot ip_node4
           [PodAdd proxy1; ServiceAdd web; EndpointsAdd web_endpoints]
           "default/web" web).
  vm_compute. reflexivity.
Defined.

(** X12 at an empty route list and a route store whose first call fails: the
    first call is the [Add] for [web] and [proxy1]. *)
Lemma add_error_ends_the_run_sample :
  (@run_reconcile _ (routes_model.store first_call_fails) one_of_each (routes_of [])).2
  = inl "session closed"
  ∧ @nil (Call * option error) = [].
Proof.
  apply (@add_error_ends_the_run _ (routes_model.store first_call_fails)
           one_of_each (routes_of []) [] [] web proxy1 "session closed").
  vm_compute. reflexivity.
Defined.

(** X17 at a new controller and a route list of one route. *)
Lemma empty_proxies_prune_all_sample :
  let c := NewExternalServicesController ip_node4 in
  let st := routes_of [route web proxy1] in
  (∀ service proxy e,
     (CallAdd service proxy, e)
     ∉ calls (@run_reconcile _ (routes_model.store never) c st).1)
  ∧ ((@run_reconcile _ (routes_model.store never) c st).2 = inr () →
     ∀ r, r ∈ routes_model.List st →
          r ∈ deleted (calls (@run_reconcile _ (routes_model.store never) c st).1)).
Proof.
  intros c st.
  apply (@empty_proxies_prune_all _ (routes_model.store never) c st).
  reflexivity.
Defined.

(** X18 at the endpoints of [web] losing their last address: the route of
    [web] and [proxy1] is deleted. *)
Lemma eviction_reaches_the_routes_sample :
  let c := @endpointsAdd web_endpoints_empty one_of_each in
  let st := routes_of [route web proxy1] in
  route web proxy1 ∈ deleted (calls (@run_reconcile _ (routes_model.store never) c st).1).
Proof.
  intros c st.
  destruct (@eviction_reaches_the_routes kube_parrot _ (routes_model.store never)
              st (route web proxy1)) as (_ & _ & _ & Hev & _).
  - by left.
  - apply (Hev one_of_each web_endpoints_empty); vm_compute; reflexivity.
Defined.

(** * The host address of the cached proxies *)
Section HostAddress.
Context `{Imports}.

Lemma handle_report_host (c : ExternalServicesController) (e : Event) :
  (∀ pod, added_pod e = Some pod → v1.HostIP (v1.pod_Status pod) ≠ "<nil>") →
  proxies_report_host c → proxies_report_host (handle c e).
Proof.
  intros He Hinv.
  assert (Hdel : ∀ obj : v1.Pod,
            proxies_report_host (Dirty (set_proxies (cache.Delete obj) c))).
  { intros obj k p. cbn. unfold cache.Delete. rewrite lookup_delete.
    case_decide; [done|apply Hinv]. }
  assert (Hadd : ∀ obj, v1.HostIP (v1.pod_Status obj) ≠ "<nil>" →
            proxies_report_host (podAdd obj c)).
  { intros obj Hobj. unfold podAdd.
    destruct (negb _ || negb _); [done|].
    destruct (negb (String.eqb _ _)); [done|].
    destruct (IsPodReady obj), (cache.exists_ (proxies c) obj);
      [done| |apply Hdel|done].
    intros k p. cbn. unfold cache.Add. rewrite lookup_insert.
    case_decide; [by intros [= <-]|apply Hinv]. }
  destruct e; cbn; try (apply Hadd, He; reflexivity).
  - unfold podDelete. case_match; [apply Hdel|done].
  - unfold serviceAdd. repeat case_match; exact Hinv.
  - unfold serviceUpdate, serviceAdd. repeat case_match; exact Hinv.
  - exact Hinv.
  - unfold endpointsAdd. repeat case_match; exact Hinv.
  - unfold endpointsUpdate, endpointsAdd. repeat case_match; exact Hinv.
  - unfold endpointsDelete. repeat case_match; exact Hinv.
Qed.

Lemma deliver_report_host (events : list Event) (c : ExternalServicesController) :
  hosts_reported events →
  proxies_report_host c → proxies_report_host (deliver events c).
Proof.
  revert c. induction events as [|e events IH]; intros c Hev Hinv; [done|].
  rewrite deliver_cons. apply IH.
  - intros e' pod Hin. apply Hev. by right.
  - apply handle_report_host; [|done]. intros pod. apply Hev. by left.
Qed.

(** C7 (proxy host address). Starting from the empty proxies store of a new
    controller, after any sequence of pod, service and endpoints
    notifications whose pods report a host address (or none yet) and not the
    text ["<nil>"], every pod in the proxies store reports as its host address
    the node address given at construction, as [String] prints it. This holds
    for every node address, with or without an IPv4 form. *)
Theorem cached_proxy_on_node_address (ip : net.IP) (events : list Event)
    (k : string) (pod : v1.Pod) :
  hosts_reported events →
  proxies (deliver events (NewExternalServicesController ip)) !! k = Some pod →
  v1.HostIP (v1.pod_Status pod) = net.String_ ip.
Proof.
  intros Hev Hk.
  destruct (deliver_on_host events (NewExternalServicesController ip)) as [Hinv Hip].
  { intros k' p Hl. cbn in Hl. unfold cache.NewStore in Hl.
    by rewrite lookup_empty in Hl. }
  specialize (Hinv k pod Hk). rewrite Hip in Hinv. cbn in Hinv.
  assert (Hne : v1.HostIP (v1.pod_Status pod) ≠ "<nil>").
  { refine (deliver_report_host events _ Hev _ k pod Hk).
    intros k' p Hl. cbn in Hl. unfold cache.NewStore in Hl.
    by rewrite lookup_empty in Hl. }
  destruct (To4_shape ip) as [Hnil|(a & b & c & d & H4)].
  - exfalso. apply Hne. by rewrite Hinv, Hnil.
  - rewrite Hinv. apply String_To4. by rewrite H4.
Qed.

End HostAddress.

(** C7 at a node with an IPv4 address: the ready proxy [proxy1] on the node is
    cached, the proxy [proxy_far] on another node is not, and the cached pod
    reports the node address. *)
Lemma cached_proxy_on_node_address_sample :
  v1.HostIP (v1.pod_Status proxy1) = net.String_ ip_node4.
Proof.
  apply (@cached_proxy_on_node_address kube_parrot ip_node4
           [PodAdd proxy_far; PodAdd proxy1; PodUpdate proxy1 proxy1]
           "kube-system/kube-proxy-x7k" proxy1).
  - intros e pod Hin Hpod.
    repeat (apply elem_of_cons in Hin as [->|Hin];
            [injection Hpod as <-; discriminate|]).
    by apply elem_of_nil in Hin.
  - vm_compute. reflexivity.
Defined.

(** C9 as first worded fails in two ways, both at a new controller, where a
    route fails all three checks. When the first [Delete] reports an error,
    the run ends there: one call, not three. When the route list holds the
    route twice, the loop body runs twice for it: six calls, not three. *)
Lemma delete_count_is_not_failed_checks :
  let c := NewExternalServicesController ip_node4 in
  let r := route web proxy1 in
  failed_checks c r = 3
  ∧ length (filter (λ r', r' = r)
      (deleted (calls (@run_reconcile _ (routes_model.store first_call_fails) c
                         (routes_of [r])).1))) = 1
  ∧ length (filter (λ r', r' = r)
      (deleted (calls (@run_reconcile _ (routes_model.store never) c
                         (routes_of [r; r])).1))) = 6.
Proof. vm_compute. split_and!; reflexivity. Qed.
